(** * calsim_toolkit: variable dependency analysis

    A shallow embedding of [apps/variable_dependencies.py] and the
    verification of its specification.

    The program is a text analysis written with Python's [re] module.  The
    embedding therefore starts with a model of the fragment of [re] that the
    program uses: a backtracking matcher with the priorities of Python's
    engine (greedy and lazy repetition of one character class, optional
    character, word boundary, single-character look-ahead) and the scanning
    discipline of [re.finditer].  The functions of the program are then
    transcribed one by one on top of it.

    Modelling conventions.
    - Text is a list of 8-bit characters.  The character classes [\s], [\d],
      [\w] and case folding are those of Python on the ASCII range; a
      character above 127 is neither a word character nor white space.
    - A queried variable name is interpolated by the program into a pattern.
      The embedding interpolates it as a literal, which is what Python does
      when the name has no pattern metacharacter (in particular for every
      identifier).
    - The file system is represented by the result of the directory scan:
      the list of model files, in enumeration order, keyed by the path
      relative to the study directory. *)

From Stdlib Require Import Ascii String List Arith Bool Lia Permutation.
From Stdlib Require DecimalString.
Import ListNotations.

Set Implicit Arguments.

(** ** Text *)

Definition str := list ascii.

Definition txt (s : string) : str := list_ascii_of_string s.

Definition str_eq_dec : forall a b : str, {a = b} + {a <> b} :=
  list_eq_dec ascii_dec.

Definition str_eqb (a b : str) : bool :=
  if str_eq_dec a b then true else false.

Definition space : ascii := " "%char.
Definition newline : ascii := "010"%char.

Module CharClass.

Definition code (c : ascii) : nat := nat_of_ascii c.

(** [str.isspace] on the ASCII range: TAB, LF, VT, FF, CR, the four
    separators FS, GS, RS, US and the blank. *)
Definition is_space (c : ascii) : bool :=
  let n := code c in
  ((9 <=? n) && (n <=? 13)) || ((28 <=? n) && (n <=? 32)).

Definition is_digit (c : ascii) : bool :=
  let n := code c in (48 <=? n) && (n <=? 57).

Definition is_upper (c : ascii) : bool :=
  let n := code c in (65 <=? n) && (n <=? 90).

Definition is_lower (c : ascii) : bool :=
  let n := code c in (97 <=? n) && (n <=? 122).

Definition is_word (c : ascii) : bool :=
  is_digit c || is_upper c || is_lower c || (code c =? 95).

Definition lower (c : ascii) : ascii :=
  if is_upper c then ascii_of_nat (code c + 32) else c.

(** Equality of characters up to case, as under [re.IGNORECASE]. *)
Definition ci_eqb (a b : ascii) : bool := Ascii.eqb (lower a) (lower b).

Definition is_word_opt (o : option ascii) : bool :=
  match o with Some c => is_word c | None => false end.

End CharClass.
Import CharClass.

(** ** The fragment of Python's [re] used by the program *)

Module Re.

Record flags := Flags { IGNORECASE : bool; DOTALL : bool }.

Definition no_flags := Flags false false.
Definition I := Flags true false.
Definition S_ := Flags false true.
Definition I_S := Flags true true.

(** A pattern item that consumes exactly one character. *)
Inductive atom :=
| Lit (c : ascii)   (* the character itself *)
| Dot               (* [.] *)
| Space             (* [\s] *)
| Digit             (* [\d] *)
| Word.             (* [\w] *)

Inductive regex :=
| Eps
| Atom (a : atom)
| Cat (r1 r2 : regex)
| Star (a : atom)       (* [a*]  *)
| StarLazy (a : atom)   (* [a*?] *)
| Opt (a : atom)        (* [a?]  *)
| Bound                 (* [\b]  *)
| Ahead (a : atom).     (* [(?=a)] *)

Definition Plus (a : atom) : regex := Cat (Atom a) (Star a).
Definition PlusLazy (a : atom) : regex := Cat (Atom a) (StarLazy a).

(** A literal string, as a pattern. *)
Fixpoint lit (s : str) : regex :=
  match s with
  | [] => Eps
  | c :: s' => Cat (Atom (Lit c)) (lit s')
  end.

(** Concatenation of pattern pieces, right nested. *)
Fixpoint cats (rs : list regex) : regex :=
  match rs with
  | [] => Eps
  | [r] => r
  | r :: rs' => Cat r (cats rs')
  end.

Definition atom_ok (f : flags) (a : atom) (c : ascii) : bool :=
  match a with
  | Lit x => if IGNORECASE f then ci_eqb x c else Ascii.eqb x c
  | Dot => DOTALL f || negb (Ascii.eqb c newline)
  | Space => is_space c
  | Digit => is_digit c
  | Word => is_word c
  end.

(** A position in the subject: the character before it (if any), its
    offset, and the text from it on. *)
Record cursor := Cur { prev : option ascii; pos : nat; rest : str }.

Definition at_boundary (c : cursor) : bool :=
  xorb (is_word_opt (prev c)) (is_word_opt (hd_error (rest c))).

Section Exec.
Variable f : flags.
Variable A : Type.

(** Greedy repetition: the longest run is tried first. *)
Fixpoint star_greedy (a : atom) (k : cursor -> option A)
         (p : option ascii) (n : nat) (s : str) : option A :=
  match s with
  | x :: s' =>
      if atom_ok f a x then
        match star_greedy a k (Some x) (S n) s' with
        | Some y => Some y
        | None => k (Cur p n s)
        end
      else k (Cur p n s)
  | [] => k (Cur p n s)
  end.

(** Lazy repetition: the shortest run is tried first. *)
Fixpoint star_lazy (a : atom) (k : cursor -> option A)
         (p : option ascii) (n : nat) (s : str) : option A :=
  match k (Cur p n s) with
  | Some y => Some y
  | None =>
      match s with
      | x :: s' =>
          if atom_ok f a x then star_lazy a k (Some x) (S n) s' else None
      | [] => None
      end
  end.

(** The backtracking matcher, in continuation-passing style: [k] is
    what remains to be matched, and the first success in priority order
    is the answer. *)
Fixpoint exec (r : regex) (c : cursor) (k : cursor -> option A)
  : option A :=
  match r with
  | Eps => k c
  | Atom a =>
      match rest c with
      | x :: s' =>
          if atom_ok f a x then k (Cur (Some x) (S (pos c)) s') else None
      | [] => None
      end
  | Cat r1 r2 => exec r1 c (fun c' => exec r2 c' k)
  | Star a => star_greedy a k (prev c) (pos c) (rest c)
  | StarLazy a => star_lazy a k (prev c) (pos c) (rest c)
  | Opt a =>
      match rest c with
      | x :: s' =>
          if atom_ok f a x then
            match k (Cur (Some x) (S (pos c)) s') with
            | Some y => Some y
            | None => k c
            end
          else k c
      | [] => k c
      end
  | Bound => if at_boundary c then k c else None
  | Ahead a =>
      match rest c with
      | x :: _ => if atom_ok f a x then k c else None
      | [] => None
      end
  end.
End Exec.

Definition span := (nat * nat)%type.

(** Top-level success.  After an empty match the engine restarts at the
    same offset and refuses to end there again ([must_advance]). *)
Definition accept (must_advance : bool) (start : nat) (c : cursor)
  : option nat :=
  if must_advance && (pos c =? start) then None else Some (pos c).

Definition match_at (f : flags) (r : regex) (must_advance : bool)
           (c : cursor) : option nat :=
  exec f r c (accept must_advance (pos c)).

(** The scan of [re.finditer]: matches are searched from left to right,
    each search starting where the previous match ended. [resume] is that
    offset; offsets before it are skipped. *)
Fixpoint scan (f : flags) (r : regex) (resume : nat)
         (p : option ascii) (n : nat) (s : str) {struct s} : list span :=
  let next resume' :=
    match s with
    | [] => []
    | x :: s' => scan f r resume' (Some x) (S n) s'
    end in
  if n <? resume then next resume
  else
    match match_at f r false (Cur p n s) with
    | None => next resume
    | Some e =>
        if e =? n then
          (n, n) ::
          match match_at f r true (Cur p n s) with
          | Some e' => (n, e') :: next e'
          | None => next resume
          end
        else (n, e) :: next e
    end.

(** [list(re.finditer(r, code, f))], as the list of the matches' spans. *)
Definition finditer (r : regex) (code : str) (f : flags) : list span :=
  scan f r 0 None 0 code.

(** [m.group()]: the text of a match. *)
Definition group (code : str) (m : span) : str :=
  firstn (snd m - fst m) (skipn (fst m) code).

End Re.
Import Re.

(** ** Python built-ins used by the program *)

Module Py.

Inductive exn :=
| OSError (msg : str)
| IndexError
| KeyError (key : str).

(** The result of code that may raise. *)
Inductive outcome (A : Type) :=
| Ok (a : A)
| Raise (e : exn).
Arguments Ok {A} a.
Arguments Raise {A} e.

Definition bind {A B} (m : outcome A) (k : A -> outcome B) : outcome B :=
  match m with
  | Ok a => k a
  | Raise e => Raise e
  end.

(** A loop whose body may raise, accumulating by [+=]. *)
Fixpoint for_each {A B} (body : A -> outcome (list B)) (l : list A)
  : outcome (list B) :=
  match l with
  | [] => Ok []
  | a :: l' =>
      bind (body a) (fun bs =>
      bind (for_each body l') (fun bs' => Ok (bs ++ bs')))
  end.

(** [s[a:b]] for offsets [a], [b] that are not negative. *)
Definition slice (m : span) (s : str) : str :=
  firstn (snd m - fst m) (skipn (fst m) s).

(** [l[i]] *)
Definition item {A} (l : list A) (i : nat) : outcome A :=
  match nth_error l i with
  | Some a => Ok a
  | None => Raise IndexError
  end.

(** [l[-1]] *)
Definition last_item {A} (l : list A) : outcome A :=
  match rev l with
  | a :: _ => Ok a
  | [] => Raise IndexError
  end.

(** [s.split(sep, 1)] for a separator of one character. *)
Fixpoint split1 (sep : ascii) (s : str) : list str :=
  match s with
  | [] => [[]]
  | c :: s' =>
      if Ascii.eqb c sep then [[]; s']
      else match split1 sep s' with
           | h :: t => (c :: h) :: t
           | [] => [[c]]
           end
  end.

(** [s.split()]: the maximal runs of characters that are not white
    space. [tok] is the run being read, last character first. *)
Fixpoint split_ws (tok : str) (s : str) : list str :=
  let flush := match tok with [] => [] | _ => [rev tok] end in
  match s with
  | [] => flush
  | c :: s' =>
      if is_space c then flush ++ split_ws [] s'
      else split_ws (c :: tok) s'
  end.

Definition split (s : str) : list str := split_ws [] s.

(** [d[k]] on a dictionary kept as the list of its items. *)
Fixpoint getitem {V} (d : list (str * V)) (k : str) : outcome V :=
  match d with
  | [] => Raise (KeyError k)
  | (k', v) :: d' => if str_eqb k' k then Ok v else getitem d' k
  end.

(** [str(n)] *)
Definition str_of_nat (n : nat) : str :=
  txt (DecimalString.NilEmpty.string_of_uint (Nat.to_uint n)).

(** [str(x)] for [x] a number or [None]. *)
Definition str_of_opt (o : option nat) : str :=
  match o with
  | Some n => str_of_nat n
  | None => txt "None"
  end.

Definition opt_eqb (a b : option nat) : bool :=
  match a, b with
  | Some x, Some y => x =? y
  | None, None => true
  | _, _ => false
  end.

(** [enumerate(l, 1)] *)
Definition enumerate1 {A} (l : list A) : list (nat * A) :=
  combine (seq 1 (length l)) l.

(** [list(set(l))]: some enumeration, without repetition, of the
    members of [l].  Python fixes no order for it. *)
Class SetOrder := {
  list_set : list str -> list str;
  list_set_NoDup : forall l, NoDup (list_set l);
  list_set_In : forall l x, In x (list_set l) <-> In x l
}.

End Py.
Import Py.

Notation "x <- m ;; k" := (bind m (fun x => k))
  (at level 61, m at next level, right associativity).

(** ** apps/variable_dependencies.py *)

Definition re_define : regex := lit (txt "define").
Definition re_goal : regex := lit (txt "goal").
Definition re_any : regex := StarLazy Dot.

(** [statement + r'\s+' + var + '\s*?{.*?}'] *)
Definition re_statement (statement var : regex) : regex :=
  cats [statement; Plus Space; var; StarLazy Space;
        Atom (Lit "{"); StarLazy Dot; Atom (Lit "}")].

Definition find_statement (code : str) (statement var : regex) : list span :=
  let matches := finditer (re_statement statement var) code I_S in
  matches.

(** [r".*\n"] *)
Definition re_lines : regex := cats [Star Dot; Atom (Lit newline)].

Definition line_numbers (m : span) (code : str)
  : option nat * option nat :=
  let lines := finditer re_lines code I in
  fold_left
    (fun (acc : option nat * option nat) (il : nat * span) =>
       let '(start, end_) := acc in
       let '(i, line) := il in
       let start :=
         if (fst line <=? fst m) && (fst m <=? snd line)
         then Some i else start in
       let end_ :=
         if (fst line <=? snd m) && (snd m <=? snd line)
         then Some i else end_ in
       (start, end_))
    (enumerate1 lines) (None, None).

(** The body of the three replacement loops: the text before the match,
    as many blanks as the match is long, the text after the match. *)
Definition blank (temp_code : str) (m : span) : str :=
  let block1 := firstn (fst m) temp_code in
  let block2 := repeat space (snd m - fst m) in
  let block3 := skipn (snd m) temp_code in
  block1 ++ block2 ++ block3.

(** [r'/\*.*?\*/'] *)
Definition re_cb : regex :=
  cats [Atom (Lit "/"); Atom (Lit "*"); StarLazy Dot;
        Atom (Lit "*"); Atom (Lit "/")].

(** [r'!.*(?=\n)'] *)
Definition re_ic : regex :=
  cats [Atom (Lit "!"); Star Dot; Ahead (Lit newline)].

Definition comment_spans (code : str) : list span :=
  finditer re_cb code S_ ++ finditer re_ic code no_flags.

Definition remove_comments (code : str) : str :=
  let comments := comment_spans code in
  fold_left blank comments code.

(** [r'case.*?{.*?}'] *)
Definition re_case_block : regex :=
  cats [lit (txt "case"); StarLazy Dot; Atom (Lit "{");
        StarLazy Dot; Atom (Lit "}")].

Definition case_spans (code : str) : list span :=
  finditer re_case_block code S_.

Definition remove_cases (code : str) : str :=
  let cases := case_spans code in
  fold_left blank cases code.

Definition wresl_keys : list str :=
  map txt
    ["initial"; "define"; "svar"; "goal"; "group"; "dvar";
     "integer"; "alias"; "value"; "std"; "kind"; "units";
     "weight"; "upper"; "lower"; "convert"; "name"; "type";
     "desc"; "bounds"; "penalty"; "month"; "wateryear"; "always";
     "never"; "constrain"; "include"; "case"; "condition"; "lhs";
     "rhs"; "import"; "sequence"; "model"; "order"; "timeseries";
     "lookup"; "select"; "from"; "where"; "given"; "use"; "sum";
     "max"; "min"; "abs"; "binary"; "and"; "or"; "cfs"; "taf";
     "storage"; "diversion"; "flow"]%string.

(** [r'\b\d\.?\d*\b'] *)
Definition re_num : regex :=
  cats [Bound; Atom Digit; Opt (Lit "."); Star Digit; Bound].

(** [r'\b{}\b'.format(key)] *)
Definition re_key (key : str) : regex := cats [Bound; lit key; Bound].

(** [r'\bcase.*?{'] *)
Definition re_case : regex :=
  cats [Bound; lit (txt "case"); StarLazy Dot; Atom (Lit "{")].

(** [r'\[.+?\]'] *)
Definition re_cycle : regex :=
  cats [Atom (Lit "["); PlusLazy Dot; Atom (Lit "]")].

Definition non_variable_spans (code : str) : list span :=
  finditer re_num code no_flags
  ++ finditer re_cycle code no_flags
  ++ flat_map
       (fun wresl_key =>
          if str_eqb wresl_key (txt "case")
          then finditer re_case code I
          else finditer (re_key wresl_key) code I)
       wresl_keys.

Definition remove_non_variables (code : str) : str :=
  let matches := non_variable_spans code in
  fold_left blank matches code.

(** One finding: [(variable, file, (start line, end line), span)]. *)
Definition record : Type :=
  str * str * (option nat * option nat) * span.

Definition found_in (lines : option nat * option nat) (file : str) : str :=
  let '(start_line, end_line) := lines in
  if opt_eqb start_line end_line
  then txt "Line " ++ str_of_opt start_line ++ txt " of " ++ file
  else txt "Lines " ++ str_of_opt start_line ++ txt " - "
       ++ str_of_opt end_line ++ txt " of " ++ file.

(** [study] is the absolute path of the study directory. *)
Definition generate_report (var study : str)
           (var_defines var_inputs var_depends : list record) : str :=
  let results :=
    txt "Variable Dependency Results for " ++ var
    ++ txt " in study diretory " ++ study ++ [newline] in
  let results :=
    results ++ [newline] ++ var
    ++ txt " is defined in the following locations:" ++ [newline] in
  let results :=
    fold_left
      (fun results (iv : nat * record) =>
         let '(i, (_, file, lines, _)) := iv in
         let var_msg := found_in lines file in
         results ++ str_of_nat i ++ txt ". " ++ var_msg ++ [newline])
      (enumerate1 var_defines) results in
  let listing results (found : list record) :=
    fold_left
      (fun results (iv : nat * record) =>
         let '(i, (v, file, lines, _)) := iv in
         let var_msg := found_in lines file in
         results ++ str_of_nat i ++ txt ". " ++ v ++ txt ": " ++ var_msg
         ++ [newline])
      (enumerate1 found) results in
  let results :=
    match var_inputs with
    | _ :: _ =>
        listing
          (results ++ [newline] ++ txt "The inputs of " ++ var
           ++ txt " are defined in the following locations:" ++ [newline])
          var_inputs
    | [] =>
        results ++ [newline] ++ txt "There are no variable inputs for "
        ++ var ++ txt "." ++ [newline]
    end in
  let results :=
    match var_depends with
    | _ :: _ =>
        listing
          (results ++ [newline] ++ txt "The following variable rely on "
           ++ var ++ txt " as input:" ++ [newline])
          var_depends
    | [] =>
        results ++ [newline] ++ txt "No variables depend on " ++ var
        ++ txt " as input." ++ [newline]
    end in
  results.

(** The dictionary returned by [main]. *)
Record results_dict := Results {
  defined : list record;
  inputs : list record;
  dependencies : list record
}.

(** What the program sees of the file system: whether the study directory
    exists, its model files in the order of the directory scan (path
    relative to the study directory, content), and its absolute path. *)
Record study_dir := Study {
  path_exists : bool;
  wresl_files : list (str * str);
  abspath : str
}.

(** What a call of [main] that does not raise has done: the texts printed,
    the file written (path, content) if any, and the value returned. *)
Record run := Run {
  stdout : list str;
  file_written : option (str * str);
  returned : option results_dict
}.

(** [r'\b{}\b'.format(var)] *)
Definition re_var (var : str) : regex := cats [Bound; lit var; Bound].

(** [r'\b\w+\b'] *)
Definition re_words : regex := cats [Bound; Plus Word; Bound].

(** The search for the definitions of [s] over the whole corpus.  The
    program has this loop twice, for the queried variable and for each of
    its candidate inputs. *)
Definition find_definitions (wresl_code : list (str * str)) (s : str)
  : list record :=
  flat_map
    (fun kv : str * str =>
       let '(k, v) := kv in
       let temp_code := remove_cases (remove_comments v) in
       let matches := find_statement temp_code re_define (lit s) in
       map (fun m => (s, k, line_numbers m v, m)) matches)
    wresl_code.

(** Pass 2, first half: the word tokens of the definition bodies. *)
Definition find_statement_inputs (wresl_code : list (str * str))
           (var_defines : list record) : outcome (list str) :=
  for_each
    (fun var_define : record =>
       let '(_, file, _, span) := var_define in
       temp_code <- getitem wresl_code file ;;
       temp_code <- item (split1 "{" (slice span temp_code)) 1 ;;
       let temp_code := remove_non_variables temp_code in
       let inputs := finditer re_words temp_code no_flags in
       Ok (map (group temp_code) inputs))
    var_defines.

(** [inputs[0].split()[-1]]: the variable a statement declares, read as
    the last token of the statement's head. *)
Definition declared_variable (inputs : list str) : outcome str :=
  head <- item inputs 0 ;;
  last_item (split head).

(** Pass 3: the statements whose body names [var]. *)
Definition find_dependents (wresl_code : list (str * str)) (var : str)
  : outcome (list record) :=
  for_each
    (fun kv : str * str =>
       let '(k, v) := kv in
       let temp_code := remove_cases (remove_comments v) in
       let matches :=
         find_statement temp_code re_define re_any
         ++ find_statement temp_code re_goal re_any in
       for_each
         (fun m : span =>
            let inputs := split1 "{" (slice m v) in
            body <- item inputs 1 ;;
            let inputs_ := remove_non_variables body in
            let found_it := finditer (re_var var) inputs_ I in
            match found_it with
            | _ :: _ =>
                vr <- declared_variable inputs ;;
                Ok [(vr, k, line_numbers m v, m)]
            | [] => Ok []
            end)
         matches)
    wresl_code.

Section Analysis.

Context {set_order : SetOrder}.

(** Pass 2, second half: each candidate input is resolved over the whole
    corpus. *)
Definition find_inputs (wresl_code : list (str * str))
           (statement_inputs : list str) : list record :=
  let statement_inputs := list_set statement_inputs in
  flat_map (find_definitions wresl_code) statement_inputs.

Definition main (fs : study_dir) (study var output_file : str)
           (verbose : bool) : outcome run :=
  if negb (path_exists fs)
  then Raise (OSError (study ++ txt " not found."))
  else
    let wresl_code := wresl_files fs in
    let var_defines := find_definitions wresl_code var in
    match var_defines with
    | [] =>
        Ok (Run [txt "Variable " ++ var ++ txt " not found in "
                 ++ study ++ txt "."]
                None None)
    | _ :: _ =>
        statement_inputs <- find_statement_inputs wresl_code var_defines ;;
        let var_inputs := find_inputs wresl_code statement_inputs in
        var_depends <- find_dependents wresl_code var ;;
        let results :=
          generate_report var (abspath fs) var_defines var_inputs
                          var_depends in
        let results_dict := Results var_defines var_inputs var_depends in
        Ok (Run (if verbose then [results] else [])
                (match output_file with
                 | _ :: _ => Some (output_file, results)
                 | [] => None
                 end)
                (Some results_dict))
    end.

End Analysis.

(** An enumeration of a set: the members in the order of their last
    occurrence. *)
#[export] Instance last_occurrence_order : SetOrder :=
  {| list_set := nodup str_eq_dec;
     list_set_NoDup := NoDup_nodup str_eq_dec;
     list_set_In := fun l x => nodup_In str_eq_dec l x |}.

(** ** Notions used to state the properties *)

(** What it means for a pattern to match between two positions,
    independently of the order in which the matcher tries things. *)
Module Sem.
Section Sem.
Variable f : flags.

Inductive repeats (a : atom) : cursor -> cursor -> Prop :=
| rep_stop c : repeats a c c
| rep_step p n x s c' :
    atom_ok f a x = true ->
    repeats a (Cur (Some x) (S n) s) c' ->
    repeats a (Cur p n (x :: s)) c'.

Inductive matches : regex -> cursor -> cursor -> Prop :=
| m_eps c : matches Eps c c
| m_atom a p n x s :
    atom_ok f a x = true ->
    matches (Atom a) (Cur p n (x :: s)) (Cur (Some x) (S n) s)
| m_cat r1 r2 c1 c2 c3 :
    matches r1 c1 c2 -> matches r2 c2 c3 -> matches (Cat r1 r2) c1 c3
| m_star a c c' : repeats a c c' -> matches (Star a) c c'
| m_star_lazy a c c' : repeats a c c' -> matches (StarLazy a) c c'
| m_opt_some a p n x s :
    atom_ok f a x = true ->
    matches (Opt a) (Cur p n (x :: s)) (Cur (Some x) (S n) s)
| m_opt_none a c : matches (Opt a) c c
| m_bound c : at_boundary c = true -> matches Bound c c
| m_ahead a p n x s :
    atom_ok f a x = true ->
    matches (Ahead a) (Cur p n (x :: s)) (Cur p n (x :: s)).
End Sem.

(** The last character of [w], or [d] when [w] is empty. *)
Definition last_char (d : option ascii) (w : str) : option ascii :=
  last (map Some w) d.

(** The position reached from [c] by reading [w]. *)
Definition after (c : cursor) (w : str) (s : str) : cursor :=
  Cur (last_char (prev c) w) (pos c + length w) s.

(** [m] is a span of [code] that [r] matches. *)
Definition matched (f : flags) (r : regex) (code : str) (m : span)
  : Prop :=
  exists w1 w w2,
    code = w1 ++ w ++ w2 /\
    fst m = length w1 /\
    snd m = length w1 + length w /\
    matches f r (Cur (last_char None w1) (length w1) (w ++ w2))
                (Cur (last_char (last_char None w1) w)
                     (length w1 + length w) w2).
End Sem.
Import Sem.

(** Offset [i] lies within the span [m]. *)
Definition covers (i : nat) (m : span) : bool :=
  (fst m <=? i) && (i <? snd m).

(** [out] is [code] with the characters of the spans [ms] replaced by
    blanks, and nothing else changed. *)
Definition blanked (code : str) (ms : list span) (out : str) : Prop :=
  forall i,
    nth_error out i =
    if existsb (covers i) ms then Some space else nth_error code i.

(** The texts a pattern can consume, leaving aside what [\b] and the
    look-ahead demand of the surroundings. *)
Fixpoint shape (f : flags) (r : regex) (w : str) : Prop :=
  match r with
  | Eps | Bound | Ahead _ => w = []
  | Atom a => exists x, w = [x] /\ atom_ok f a x = true
  | Cat r1 r2 => exists w1 w2, w = w1 ++ w2 /\ shape f r1 w1 /\ shape f r2 w2
  | Star a | StarLazy a => forallb (atom_ok f a) w = true
  | Opt a => w = [] \/ exists x, w = [x] /\ atom_ok f a x = true
  end.

(** Equality of texts up to case. *)
Fixpoint ci_str_eqb (a b : str) : bool :=
  match a, b with
  | [], [] => true
  | x :: a', y :: b' => ci_eqb x y && ci_str_eqb a' b'
  | _, _ => false
  end.

(** A variable name: a word, that is, one or more letters, digits or
    underscores. *)
Definition is_name (v : str) : bool :=
  match v with
  | [] => false
  | _ :: _ => forallb is_word v
  end.

(** Is the character before, respectively at, offset [i] a word
    character? *)
Definition word_before (code : str) (i : nat) : bool :=
  match i with
  | 0 => false
  | S j => is_word_opt (nth_error code j)
  end.

Definition word_after (code : str) (i : nat) : bool :=
  is_word_opt (nth_error code i).

(** [t] is [v] with some characters replaced by blanks. *)
Definition sanitized_of (v t : str) : Prop :=
  length t = length v /\
  forall i c, nth_error t i = Some c -> c = space \/ nth_error v i = Some c.


(** ** Lines *)

(** The number, counted from 1, of the line on which offset [o] lies:
    one more than the number of line breaks before [o]. *)
Definition line_of (code : str) (o : nat) : nat :=
  S (count_occ ascii_dec (firstn o code) newline).

(** The end of the line that contains offset [n], when [s] is the text
    from [n] on: the offset after the next line break, if there is one. *)
Fixpoint first_line_end (n : nat) (s : str) : option nat :=
  match s with
  | [] => None
  | x :: s' =>
      if Ascii.eqb x newline then Some (S n) else first_line_end (S n) s'
  end.

(** The spans of the lines that end with a line break; [s] is the text
    from offset [n] on and [start] the offset at which the line of [n]
    begins. *)
Fixpoint line_spans (start n : nat) (s : str) : list span :=
  match s with
  | [] => []
  | x :: s' =>
      if Ascii.eqb x newline
      then (start, S n) :: line_spans (S n) (S n) s'
      else line_spans start (S n) s'
  end.

(** One round of the loop of [line_numbers], for one offset. *)
Definition pick (o : nat) (acc : option nat) (il : nat * span)
  : option nat :=
  if (fst (snd il) <=? o) && (o <=? snd (snd il)) then Some (fst il)
  else acc.

(** The loop of [line_numbers] for one offset, run along the text. *)
Fixpoint locate (o start n i : nat) (s : str) (acc : option nat)
  : option nat :=
  match s with
  | [] => acc
  | x :: s' =>
      if Ascii.eqb x newline
      then locate o (S n) (S n) (S i) s' (pick o acc (i, (start, S n)))
      else locate o start (S n) i s' acc
  end.

(** ** Sample studies *)

Module Sample.

Definition a_wresl : str := txt "a.wresl".
Definition b_wresl : str := txt "b.wresl".
Definition S_SHSTA : str := txt "S_SHSTA".

(** The two model files of the specification's scenario; [nl] tells
    whether each file ends with a line break, and [swapped] whether the
    directory scan yields [b.wresl] first. *)
Definition line (nl : bool) (s : str) : str :=
  if nl then s ++ [newline] else s.



(** A file whose only text is a line comment, with no line break after
    it. *)
Definition commented_out : list (str * str) :=
  [(a_wresl, txt "! define X { }")].

(** A definition whose body mentions [Y] in a comment only. *)
Definition comment_in_body : list (str * str) :=
  [(a_wresl, txt "define X { /* Y */ 1 }" ++ [newline]);
   (b_wresl, txt "define Y { 2 }" ++ [newline])].

(** A goal whose body mentions [S] in a comment only. *)
Definition comment_in_goal : list (str * str) :=
  [(a_wresl, txt "define S { 1 }" ++ [newline]);
   (b_wresl, txt "goal G1 { /* S */ X > 1 }" ++ [newline])].

(** Two lines, the second without a line break. *)
Definition two_lines : str := txt "a" ++ [newline] ++ txt "bc".

Definition redefine : list (str * str) :=
  [(a_wresl, txt "redefine X { }")].

(** A study directory that exists and holds the given files. *)
Definition study (files : list (str * str)) : study_dir :=
  Study true files (txt "/studies/CalSim3").

(** The same files with their comments blanked beforehand. *)
Definition without_comments (files : list (str * str))
  : list (str * str) :=
  map (fun kv => (fst kv, remove_comments (snd kv))) files.

(** The same files, each with a line break added at its end. *)
Definition with_final_newline (files : list (str * str))
  : list (str * str) :=
  map (fun kv => (fst kv, snd kv ++ [newline])) files.

End Sample.

(** ** Notions used for the further properties *)

(** The spans of [l] come one after the other from offset [lo] on: each
    starts where the one before ended, or later, and none is reversed. *)
Fixpoint ordered (lo : nat) (l : list span) : bool :=
  match l with
  | [] => true
  | m :: l' => (lo <=? fst m) && (fst m <=? snd m) && ordered (snd m) l'
  end.

(** The position of [code] at offset [i]. *)
Definition cursor_at (code : str) (i : nat) : cursor :=
  Cur (last_char None (firstn i code)) i (skipn i code).

(** [r] can consume the text [w], whatever stands before and after it. *)
Definition consumes (f : flags) (r : regex) (w : str) : Prop :=
  forall p n s,
    matches f r (Cur p n (w ++ s)) (Cur (last_char p w) (n + length w) s).

(** A character of the text and the character the sanitizer leaves in
    its place: the same, or a blank. *)
Definition kept_or_blank (c o : ascii) : Prop := o = c \/ o = space.


(** A record of the result names a file of the study and a span of that
    file that is not empty, and carries the line numbers of that span. *)
Definition well_formed_record (wresl_code : list (str * str))
           (rec : record) : Prop :=
  let '(_, file, lines, span) := rec in
  exists v,
    In (file, v) wresl_code /\
    lines = line_numbers span v /\
    fst span < snd span <= length v.

(** The variable name of a record. *)
Definition record_var (rec : record) : str :=
  let '(v, _, _, _) := rec in v.



(** The line to which the loop of [line_numbers] attributes offset [o]:
    the line on which [o] lies when a line break stands at or after [o];
    the line that the final line break ends when [o] stands right after
    that break; no line otherwise. *)
Definition line_at (code : str) (o : nat) : option nat :=
  if existsb (Ascii.eqb newline) (skipn o code)
  then Some (line_of code o)
  else match o with
       | 0 => None
       | S j =>
           match nth_error code j with
           | Some c =>
               if Ascii.eqb c newline then Some (line_of code j) else None
           | None => None
           end
       end.

(** The file and the line numbers of a record. *)
Definition record_file (rec : record) : str :=
  let '(_, file, _, _) := rec in file.

Definition record_lines (rec : record) : option nat * option nat :=
  let '(_, _, lines, _) := rec in lines.

(** A record that stands for a statement found in the sanitized text of
    one of the files. *)
Definition statement_record (wresl_code : list (str * str))
           (rec : record) : Prop :=
  let '(_, file, lines, span) := rec in
  exists v kw var,
    In (file, v) wresl_code /\
    lines = line_numbers span v /\
    In span (find_statement (remove_cases (remove_comments v)) kw var).

(** [o] stands in the sanitized text where [c] stands in the text: it is
    [c] itself, or a blank that replaces a character other than a line
    break. *)
Definition kept_in_line (c o : ascii) : Prop :=
  o = c \/ (o = space /\ c <> newline).

(** An item that never accepts a blank. *)
Definition atom_solid (a : atom) : bool :=
  match a with
  | Lit x => negb (Ascii.eqb x space)
  | Digit | Word => true
  | Dot | Space => false
  end.

(** An item that accepts a character whenever it accepts what the
    sanitizer leaves in its place. *)
Definition atom_transfers (a : atom) : bool :=
  match a with
  | Dot => true
  | Space => false
  | _ => atom_solid a
  end.

Fixpoint transfers (r : regex) : bool :=
  match r with
  | Eps | Bound => true
  | Atom a | Star a | StarLazy a | Opt a => atom_transfers a
  | Cat r1 r2 => transfers r1 && transfers r2
  | Ahead _ => false
  end.

(** An item that never accepts a line break. *)
Definition atom_in_line (f : flags) (a : atom) : bool :=
  match a with
  | Lit x => negb (Ascii.eqb x newline)
  | Dot => negb (DOTALL f)
  | Digit | Word => true
  | Space => false
  end.

Fixpoint in_line (f : flags) (r : regex) : bool :=
  match r with
  | Eps | Bound | Ahead _ => true
  | Atom a | Star a | StarLazy a | Opt a => atom_in_line f a
  | Cat r1 r2 => in_line f r1 && in_line f r2
  end.

(** The item that consumes the first character of every match of a
    pattern, when the pattern shows one. *)
Fixpoint head_atom (r : regex) : option atom :=
  match r with
  | Atom a => Some a
  | Cat r1 r2 =>
      match r1 with
      | Bound => head_atom r2
      | _ => head_atom r1
      end
  | _ => None
  end.

(** A pattern whose matches lie within a line, begin with a character
    that is not a blank, and are matches still when blanks of the text
    are replaced by other characters of a line. *)
Definition solid_pattern (f : flags) (r : regex) : bool :=
  in_line f r && transfers r &&
  match head_atom r with
  | Some a => atom_solid a
  | None => false
  end.

(** The pattern that [remove_non_variables] searches for a keyword. *)
Definition key_pattern (wresl_key : str) : regex :=
  if str_eqb wresl_key (txt "case") then re_case else re_key wresl_key.


(** * Properties *)

(** ** The matcher only reports what the pattern matches *)

Section Soundness.
Variable f : flags.
Variable A : Type.

Lemma star_greedy_sound a (k : cursor -> option A) s :
  forall p n y,
    star_greedy f a k p n s = Some y ->
    exists c', repeats f a (Cur p n s) c' /\ k c' = Some y.
Proof.
  induction s as [|x s IH]; intros p n y H; simpl in H.
  - eexists; split; [apply rep_stop | exact H].
  - destruct (atom_ok f a x) eqn:Hx.
    + destruct (star_greedy f a k (Some x) (S n) s) as [z|] eqn:Hs.
      * inversion H; subst z.
        destruct (IH _ _ _ Hs) as (c' & Hr & Hk).
        exists c'; split; [apply rep_step; assumption | exact Hk].
      * eexists; split; [apply rep_stop | exact H].
    + eexists; split; [apply rep_stop | exact H].
Qed.

Lemma star_lazy_sound a (k : cursor -> option A) s :
  forall p n y,
    star_lazy f a k p n s = Some y ->
    exists c', repeats f a (Cur p n s) c' /\ k c' = Some y.
Proof.
  induction s as [|x s IH]; intros p n y H; simpl in H.
  - destruct (k (Cur p n [])) eqn:Hk; [|discriminate].
    eexists; split; [apply rep_stop | congruence].
  - destruct (k (Cur p n (x :: s))) eqn:Hk.
    + eexists; split; [apply rep_stop | congruence].
    + destruct (atom_ok f a x) eqn:Hx; [|discriminate].
      destruct (IH _ _ _ H) as (c' & Hr & Hk').
      exists c'; split; [apply rep_step; assumption | exact Hk'].
Qed.

Lemma exec_sound r :
  forall c (k : cursor -> option A) y,
    exec f r c k = Some y ->
    exists c', matches f r c c' /\ k c' = Some y.
Proof.
  induction r as [|a|r1 IH1 r2 IH2|a|a|a| |a]; intros [p n s] k y H;
    simpl in H.
  - eexists; split; [constructor | exact H].
  - destruct s as [|x s]; [discriminate|].
    destruct (atom_ok f a x) eqn:Hx; [|discriminate].
    eexists; split; [constructor; exact Hx | exact H].
  - destruct (IH1 _ _ _ H) as (c2 & H1 & H').
    destruct (IH2 _ _ _ H') as (c3 & H2 & Hk).
    exists c3; split; [econstructor; eassumption | exact Hk].
  - destruct (star_greedy_sound _ _ _ _ _ H) as (c' & Hr & Hk).
    exists c'; split; [constructor; exact Hr | exact Hk].
  - destruct (star_lazy_sound _ _ _ _ _ H) as (c' & Hr & Hk).
    exists c'; split; [constructor; exact Hr | exact Hk].
  - destruct s as [|x s].
    + eexists; split; [apply m_opt_none | exact H].
    + destruct (atom_ok f a x) eqn:Hx.
      * destruct (k (Cur (Some x) (S n) s)) eqn:Hk.
        -- eexists; split; [apply m_opt_some; exact Hx | congruence].
        -- eexists; split; [apply m_opt_none | exact H].
      * eexists; split; [apply m_opt_none | exact H].
  - destruct (at_boundary (Cur p n s)) eqn:Hb; [|discriminate].
    eexists; split; [constructor; exact Hb | exact H].
  - destruct s as [|x s]; [discriminate|].
    destruct (atom_ok f a x) eqn:Hx; [|discriminate].
    eexists; split; [constructor; exact Hx | exact H].
Qed.
End Soundness.

(** ** Matches as pieces of the subject *)

Lemma last_nonempty {T} (a : T) l d d' : last (a :: l) d = last (a :: l) d'.
Proof.
  revert a. induction l as [|b l IH]; intros a.
  - reflexivity.
  - change (last (b :: l) d = last (b :: l) d'). apply IH.
Qed.

Lemma last_char_cons d x w : last_char d (x :: w) = last_char (Some x) w.
Proof.
  unfold last_char. destruct w as [|y w].
  - reflexivity.
  - change (last (Some y :: map Some w) d
            = last (Some y :: map Some w) (Some x)).
    apply last_nonempty.
Qed.

Lemma last_char_app d w1 w2 :
  last_char d (w1 ++ w2) = last_char (last_char d w1) w2.
Proof.
  revert d. induction w1 as [|x w1 IH]; intros d.
  - reflexivity.
  - simpl app. rewrite !last_char_cons. apply IH.
Qed.

Lemma repeats_after f a c c' :
  repeats f a c c' ->
  exists w, rest c = w ++ rest c' /\ c' = after c w (rest c') /\
            forallb (atom_ok f a) w = true.
Proof.
  induction 1 as [[p n s]|p n x s c' Hx _ IH].
  - exists []. unfold after. simpl. rewrite Nat.add_0_r. auto.
  - destruct IH as (w & Hs & Hc & Hw). exists (x :: w). simpl in *.
    repeat split.
    + rewrite Hs. reflexivity.
    + rewrite Hc at 1. unfold after. simpl. rewrite last_char_cons.
      f_equal. lia.
    + rewrite Hx, Hw. reflexivity.
Qed.

Lemma after_nil c : after c [] (rest c) = c.
Proof.
  destruct c. unfold after. simpl. rewrite Nat.add_0_r. reflexivity.
Qed.

Lemma after_one p n x s : after (Cur p n (x :: s)) [x] s = Cur (Some x) (S n) s.
Proof. unfold after. simpl. f_equal. lia. Qed.

Lemma matches_after f r c c' :
  matches f r c c' ->
  exists w, rest c = w ++ rest c' /\ c' = after c w (rest c').
Proof.
  induction 1 as [c|a p n x s Hx|r1 r2 c1 c2 c3 _ IH1 _ IH2|a c c' Hr
                 |a c c' Hr|a p n x s Hx|a c|c Hb|a p n x s Hx].
  - exists []. rewrite after_nil. auto.
  - exists [x]. rewrite after_one. auto.
  - destruct IH1 as (w1 & Hs1 & Hc1). destruct IH2 as (w2 & Hs2 & Hc2).
    exists (w1 ++ w2). split.
    + rewrite Hs1, Hs2, app_assoc. reflexivity.
    + rewrite Hc2 at 1. rewrite Hc1. unfold after. simpl.
      rewrite last_char_app, length_app. f_equal. lia.
  - destruct (repeats_after Hr) as (w & ? & ? & _). eauto.
  - destruct (repeats_after Hr) as (w & ? & ? & _). eauto.
  - exists [x]. rewrite after_one. auto.
  - exists []. rewrite after_nil. auto.
  - exists []. rewrite after_nil. auto.
  - exists []. rewrite after_nil. auto.
Qed.

Lemma match_at_sound f r b p n s e :
  match_at f r b (Cur p n s) = Some e ->
  exists w w2,
    s = w ++ w2 /\ e = n + length w /\
    matches f r (Cur p n s) (Cur (last_char p w) (n + length w) w2).
Proof.
  unfold match_at. intros H.
  destruct (exec_sound _ _ _ _ H) as (c' & Hm & Ha).
  destruct (matches_after Hm) as (w & Hs & Hc). simpl in Hs.
  exists w, (rest c'). split; [exact Hs|].
  unfold accept in Ha.
  destruct (b && (pos c' =? pos (Cur p n s))); [discriminate|].
  inversion Ha; subst e. rewrite Hc in Hm |- *. simpl. auto.
Qed.

Lemma scan_sound f r s :
  forall resume p n m,
    In m (scan f r resume p n s) ->
    exists w1 w w2,
      s = w1 ++ w ++ w2 /\
      fst m = n + length w1 /\
      snd m = n + length w1 + length w /\
      matches f r (Cur (last_char p w1) (n + length w1) (w ++ w2))
                  (Cur (last_char (last_char p w1) w)
                       (n + length w1 + length w) w2).
Proof.
  assert (Hhead : forall p n s b e m,
             match_at f r b (Cur p n s) = Some e -> m = (n, e) ->
             exists w1 w w2,
               s = w1 ++ w ++ w2 /\
               fst m = n + length w1 /\
               snd m = n + length w1 + length w /\
               matches f r (Cur (last_char p w1) (n + length w1) (w ++ w2))
                           (Cur (last_char (last_char p w1) w)
                                (n + length w1 + length w) w2)).
  { intros p n s0 b e m H ->.
    destruct (match_at_sound _ _ _ _ _ _ H) as (w & w2 & -> & -> & Hm).
    exists [], w, w2. simpl. rewrite !Nat.add_0_r. auto. }
  induction s as [|x s IH]; intros resume p n m Hin.
  - simpl in Hin.
    destruct (n <? resume); [destruct Hin|].
    destruct (match_at f r false (Cur p n [])) as [e|] eqn:H1;
      [|destruct Hin].
    destruct (Nat.eqb_spec e n) as [->|_].
    + destruct Hin as [<-|Hin]; [eapply Hhead; eauto|].
      destruct (match_at f r true (Cur p n [])) as [e'|] eqn:H2;
        [|destruct Hin].
      destruct Hin as [<-|[]]. eapply Hhead; eauto.
    + destruct Hin as [<-|[]]. eapply Hhead; eauto.
  - assert (Hnext : forall resume',
               In m (scan f r resume' (Some x) (S n) s) ->
               exists w1 w w2,
                 x :: s = w1 ++ w ++ w2 /\
                 fst m = n + length w1 /\
                 snd m = n + length w1 + length w /\
                 matches f r
                   (Cur (last_char p w1) (n + length w1) (w ++ w2))
                   (Cur (last_char (last_char p w1) w)
                        (n + length w1 + length w) w2)).
    { intros resume' H.
      destruct (IH _ _ _ _ H) as (w1 & w & w2 & -> & Hs & He & Hm).
      exists (x :: w1), w, w2. rewrite last_char_cons. simpl length.
      replace (n + S (length w1)) with (S n + length w1) by lia.
      auto. }
    simpl in Hin.
    destruct (n <? resume); [eauto|].
    destruct (match_at f r false (Cur p n (x :: s))) as [e|] eqn:H1;
      [|eauto].
    destruct (Nat.eqb_spec e n) as [->|_].
    + destruct Hin as [<-|Hin]; [eapply Hhead; eauto|].
      destruct (match_at f r true (Cur p n (x :: s))) as [e'|] eqn:H2;
        [|eauto].
      destruct Hin as [<-|Hin]; [eapply Hhead; eauto | eauto].
    + destruct Hin as [<-|Hin]; [eapply Hhead; eauto | eauto].
Qed.

(** Every span reported by [finditer] is matched by the pattern. *)
Lemma finditer_matched r code f m :
  In m (finditer r code f) -> matched f r code m.
Proof.
  intros H. apply scan_sound in H.
  destruct H as (w1 & w & w2 & Hc & Hs & He & Hm).
  exists w1, w, w2. simpl in *. auto.
Qed.

Lemma matched_bounds f r code m :
  matched f r code m -> fst m <= snd m <= length code.
Proof.
  intros (w1 & w & w2 & -> & -> & -> & _).
  rewrite !length_app. lia.
Qed.

(** ** Replacing spans by blanks *)

Lemma blank_length t m :
  fst m <= snd m <= length t -> length (blank t m) = length t.
Proof.
  intros H. unfold blank.
  rewrite !length_app, repeat_length, length_firstn, length_skipn. lia.
Qed.

Lemma blank_nth t m i :
  fst m <= snd m <= length t ->
  nth_error (blank t m) i =
  if covers i m then Some space else nth_error t i.
Proof.
  intros H. unfold blank, covers.
  rewrite nth_error_app, length_firstn, Nat.min_l by lia.
  destruct (Nat.ltb_spec i (fst m)) as [Hlt|Hge].
  - rewrite nth_error_firstn.
    destruct (Nat.ltb_spec i (fst m)); [|lia].
    destruct (Nat.leb_spec (fst m) i); [lia|]. reflexivity.
  - destruct (Nat.leb_spec (fst m) i); [|lia]. simpl.
    rewrite nth_error_app, repeat_length.
    destruct (Nat.ltb_spec (i - fst m) (snd m - fst m)).
    + destruct (Nat.ltb_spec i (snd m)); [|lia].
      apply nth_error_repeat. assumption.
    + destruct (Nat.ltb_spec i (snd m)); [lia|].
      rewrite nth_error_skipn. f_equal. lia.
Qed.

Lemma fold_blank_length (ms : list span) :
  forall t : str,
    (forall m, In m ms -> fst m <= snd m <= length t) ->
    length (fold_left blank ms t) = length t.
Proof.
  induction ms as [|m ms IH]; intros t H; simpl.
  - reflexivity.
  - assert (Hm : length (blank t m) = length t)
      by (apply blank_length, H; left; reflexivity).
    rewrite IH, Hm; [reflexivity|].
    intros m' Hin. rewrite Hm. apply H. right. exact Hin.
Qed.

Lemma fold_blank_blanked (ms : list span) :
  forall code t : str,
    length t = length code ->
    (forall m, In m ms -> fst m <= snd m <= length code) ->
    forall i,
      nth_error (fold_left blank ms t) i =
      if existsb (covers i) ms then Some space else nth_error t i.
Proof.
  induction ms as [|m ms IH]; intros code t Hlen H i; simpl.
  - reflexivity.
  - assert (Hm : fst m <= snd m <= length t)
      by (rewrite Hlen; apply H; left; reflexivity).
    rewrite (IH code).
    + rewrite blank_nth by exact Hm.
      destruct (covers i m), (existsb (covers i) ms); reflexivity.
    + rewrite blank_length; assumption.
    + intros m' Hin. apply H. right. exact Hin.
Qed.

(** A span of a blanked text that was one of the removed spans is a run
    of blanks of the length of the span. *)
Lemma blanked_slice code ms out m :
  blanked code ms out -> In m ms -> fst m <= snd m <= length code ->
  length out = length code ->
  slice m out = repeat space (snd m - fst m).
Proof.
  intros Hb Hin Hm Hlen. apply nth_error_ext. intros i. unfold slice.
  rewrite nth_error_firstn, nth_error_skipn, Hb.
  destruct (Nat.ltb_spec i (snd m - fst m)) as [Hi|Hi].
  - rewrite nth_error_repeat by exact Hi.
    assert (Hc : existsb (covers (fst m + i)) ms = true).
    { apply existsb_exists. exists m. split; [exact Hin|].
      unfold covers. apply andb_true_intro. split.
      - apply Nat.leb_le. lia.
      - apply Nat.ltb_lt. lia. }
    rewrite Hc. reflexivity.
  - symmetry. apply nth_error_None. rewrite repeat_length. exact Hi.
Qed.

Section Sanitizer.
(** A sanitizer step: the spans are found in the text, then blanked. *)
Variable spans : str -> list span.
Hypothesis spans_bounds :
  forall code m, In m (spans code) -> fst m <= snd m <= length code.

Lemma sanitize_length code :
  length (fold_left blank (spans code) code) = length code.
Proof. apply fold_blank_length. apply spans_bounds. Qed.

Lemma sanitize_blanked code :
  blanked code (spans code) (fold_left blank (spans code) code).
Proof.
  intros i. apply (fold_blank_blanked (spans code) code);
    [reflexivity | apply spans_bounds].
Qed.

Lemma sanitize_slice code m :
  In m (spans code) ->
  slice m (fold_left blank (spans code) code)
  = repeat space (snd m - fst m).
Proof.
  intros Hin.
  apply (blanked_slice (code := code) (ms := spans code));
    auto using sanitize_blanked, sanitize_length.
Qed.
End Sanitizer.

Lemma finditer_bounds r code f m :
  In m (finditer r code f) -> fst m <= snd m <= length code.
Proof. intros H. eapply matched_bounds, finditer_matched, H. Qed.

Lemma comment_spans_bounds code m :
  In m (comment_spans code) -> fst m <= snd m <= length code.
Proof.
  unfold comment_spans. rewrite in_app_iff.
  intros [H|H]; eapply finditer_bounds, H.
Qed.

Lemma case_spans_bounds code m :
  In m (case_spans code) -> fst m <= snd m <= length code.
Proof. apply finditer_bounds. Qed.

Lemma non_variable_spans_bounds code m :
  In m (non_variable_spans code) -> fst m <= snd m <= length code.
Proof.
  unfold non_variable_spans. rewrite !in_app_iff, in_flat_map.
  intros [H|[H|(key & _ & H)]]; try (eapply finditer_bounds, H).
  destruct (str_eqb key (txt "case")); eapply finditer_bounds, H.
Qed.

Lemma remove_comments_length code :
  length (remove_comments code) = length code.
Proof. apply sanitize_length, comment_spans_bounds. Qed.

Lemma remove_comments_blanked code :
  blanked code (comment_spans code) (remove_comments code).
Proof. apply sanitize_blanked, comment_spans_bounds. Qed.

Lemma remove_cases_length code : length (remove_cases code) = length code.
Proof. apply sanitize_length, case_spans_bounds. Qed.

Lemma remove_cases_blanked code :
  blanked code (case_spans code) (remove_cases code).
Proof. apply sanitize_blanked, case_spans_bounds. Qed.

(** C2. Each of the three sanitizer operations returns a text of exactly
    the length of its input: every span it removes is replaced by a run
    of blanks of the same length, and every character outside the removed
    spans is kept where it was. *)
Theorem sanitizers_preserve_length (code : str) :
  (length (remove_comments code) = length code /\
   (forall m, In m (comment_spans code) ->
              slice m (remove_comments code)
              = repeat space (snd m - fst m)) /\
   blanked code (comment_spans code) (remove_comments code))
  /\
  (length (remove_cases code) = length code /\
   (forall m, In m (case_spans code) ->
              slice m (remove_cases code)
              = repeat space (snd m - fst m)) /\
   blanked code (case_spans code) (remove_cases code))
  /\
  (length (remove_non_variables code) = length code /\
   (forall m, In m (non_variable_spans code) ->
              slice m (remove_non_variables code)
              = repeat space (snd m - fst m)) /\
   blanked code (non_variable_spans code) (remove_non_variables code)).
Proof.
  unfold remove_comments, remove_cases, remove_non_variables.
  repeat split;
    first [ apply sanitize_length
          | intros m Hm; apply sanitize_slice; [|exact Hm]
          | apply sanitize_blanked ];
    auto using comment_spans_bounds, case_spans_bounds,
               non_variable_spans_bounds.
Qed.

(** ** Characters *)

Ltac ascii_cases c := destruct c as [[] [] [] [] [] [] [] []].

Lemma is_word_lower c : is_word (lower c) = is_word c.
Proof. ascii_cases c; reflexivity. Qed.

Lemma word_not_space c : is_word c = true -> is_space c = false.
Proof. ascii_cases c; intros H; try reflexivity; discriminate H. Qed.

Lemma ci_eqb_brace x : ci_eqb "{" x = Ascii.eqb "{" x.
Proof. ascii_cases x; reflexivity. Qed.

Lemma ci_eqb_word x y : ci_eqb x y = true -> is_word x = is_word y.
Proof.
  unfold ci_eqb. intros H. apply Ascii.eqb_eq in H.
  rewrite <- (is_word_lower x), H. apply is_word_lower.
Qed.

Lemma atom_ok_lit_brace f x : atom_ok f (Lit "{") x = true -> x = "{"%char.
Proof.
  unfold atom_ok. destruct (IGNORECASE f); [rewrite ci_eqb_brace|];
    intros H; apply Ascii.eqb_eq in H; auto.
Qed.

(** ** Texts equal up to case *)

Lemma ci_str_eqb_length a : forall b,
  ci_str_eqb a b = true -> length a = length b.
Proof.
  induction a as [|x a IH]; intros [|y b] H; simpl in *;
    try discriminate; auto.
  apply andb_prop in H. destruct H as [_ H]. f_equal. auto.
Qed.

Lemma ci_str_eqb_word a : forall b,
  ci_str_eqb a b = true -> forallb is_word a = forallb is_word b.
Proof.
  induction a as [|x a IH]; intros [|y b] H; simpl in *;
    try discriminate; auto.
  apply andb_prop in H. destruct H as [Hx H].
  rewrite (ci_eqb_word _ _ Hx), (IH _ H). reflexivity.
Qed.

(** ** What a match consumes *)

Lemma matches_shape f r c c' :
  matches f r c c' ->
  exists w, rest c = w ++ rest c' /\ c' = after c w (rest c') /\
            shape f r w.
Proof.
  induction 1 as [c|a p n x s Hx|r1 r2 c1 c2 c3 _ IH1 _ IH2|a c c' Hr
                 |a c c' Hr|a p n x s Hx|a c|c Hb|a p n x s Hx].
  - exists []. rewrite after_nil. simpl. auto.
  - exists [x]. rewrite after_one. simpl. eauto.
  - destruct IH1 as (w1 & Hs1 & Hc1 & Hw1).
    destruct IH2 as (w2 & Hs2 & Hc2 & Hw2).
    exists (w1 ++ w2). repeat split.
    + rewrite Hs1, Hs2, app_assoc. reflexivity.
    + rewrite Hc2 at 1. rewrite Hc1. unfold after. simpl.
      rewrite last_char_app, length_app. f_equal. lia.
    + simpl. eauto.
  - destruct (repeats_after Hr) as (w & ? & ? & ?). eauto.
  - destruct (repeats_after Hr) as (w & ? & ? & ?). eauto.
  - exists [x]. rewrite after_one. simpl. eauto 6.
  - exists []. rewrite after_nil. simpl. auto.
  - exists []. rewrite after_nil. simpl. auto.
  - exists []. rewrite after_nil. simpl. auto.
Qed.

Lemma shape_lit f v : forall w,
  IGNORECASE f = true -> shape f (lit v) w -> ci_str_eqb v w = true.
Proof.
  induction v as [|x v IH]; intros w Hf H; simpl in H.
  - subst w. reflexivity.
  - destruct H as (w1 & w2 & -> & (y & -> & Hy) & H2).
    simpl in Hy |- *. rewrite Hf in Hy. rewrite Hy. simpl. auto.
Qed.

Lemma shape_statement f kw var w :
  shape f (re_statement kw var) w ->
  exists k ws v ws2 tail,
    w = k ++ ws ++ v ++ ws2 ++ "{"%char :: tail /\
    shape f kw k /\ shape f var v /\
    ws <> [] /\ forallb is_space ws = true /\ forallb is_space ws2 = true.
Proof.
  unfold re_statement. cbn [cats shape Plus].
  intros (k & w1 & -> & Hk & (ws & w2 & -> & Hws & (v & w3 & -> & Hv &
          (ws2 & w4 & -> & Hws2 & (b & w5 & -> & Hb & _))))).
  destruct Hws as (s1 & s2 & -> & (x & -> & Hx) & Hs2).
  destruct Hb as (x1 & -> & Hx1). apply atom_ok_lit_brace in Hx1. subst x1.
  exists k, ([x] ++ s2), v, ws2, w5.
  repeat split; auto.
  - discriminate.
  - cbn [atom_ok] in *. simpl. rewrite Hx. exact Hs2.
Qed.

Lemma slice_middle (w1 w w2 : str) :
  slice (length w1, length w1 + length w) (w1 ++ w ++ w2) = w.
Proof.
  unfold slice. simpl.
  rewrite skipn_app, skipn_all, Nat.sub_diag. simpl.
  replace (length w1 + length w - length w1) with (length w + 0) by lia.
  rewrite firstn_app_2. simpl. apply app_nil_r.
Qed.

Lemma matched_slice f r code m :
  matched f r code m ->
  exists w1 w2,
    code = w1 ++ slice m code ++ w2 /\
    fst m = length w1 /\ snd m = length w1 + length (slice m code) /\
    matches f r
      (Cur (last_char None w1) (fst m) (slice m code ++ w2))
      (Cur (last_char (last_char None w1) (slice m code)) (snd m) w2).
Proof.
  intros (w1 & w & w2 & Hc & Hs & He & Hm). destruct m as [s e].
  simpl in Hs, He. subst s e code. rewrite slice_middle.
  exists w1, w2. auto.
Qed.

(** The text of a reported match has the shape of the pattern. *)
Lemma matched_shape f r code m :
  matched f r code m -> shape f r (slice m code).
Proof.
  intros H. destruct (matched_slice H) as (w1 & w2 & _ & _ & _ & Hm).
  destruct (matches_shape Hm) as (w & Hr & _ & Hw). simpl in Hr.
  apply app_inv_tail in Hr. rewrite Hr. exact Hw.
Qed.

(** ** Splitting *)

Lemma split1_at sep h t :
  forallb (fun c => negb (Ascii.eqb c sep)) h = true ->
  split1 sep (h ++ sep :: t) = [h; t].
Proof.
  induction h as [|c h IH]; simpl; intros H.
  - rewrite Ascii.eqb_refl. reflexivity.
  - apply andb_prop in H. destruct H as [Hc H].
    destruct (Ascii.eqb c sep); [discriminate|].
    rewrite IH by exact H. reflexivity.
Qed.

Lemma split_ws_token w : forall tok s,
  forallb (fun c => negb (is_space c)) w = true ->
  split_ws tok (w ++ s) = split_ws (rev w ++ tok) s.
Proof.
  induction w as [|c w IH]; intros tok s H; simpl in *.
  - reflexivity.
  - apply andb_prop in H. destruct H as [Hc H].
    destruct (is_space c); [discriminate|].
    rewrite IH by exact H. rewrite <- app_assoc. reflexivity.
Qed.

Lemma split_ws_blanks ws : forall s,
  forallb is_space ws = true -> split_ws [] (ws ++ s) = split_ws [] s.
Proof.
  induction ws as [|c ws IH]; intros s H; simpl in *.
  - reflexivity.
  - apply andb_prop in H. destruct H as [Hc H]. rewrite Hc. simpl. auto.
Qed.

Lemma split_ws_flush tok ws s :
  tok <> [] -> ws <> [] -> forallb is_space ws = true ->
  split_ws tok (ws ++ s) = rev tok :: split_ws [] s.
Proof.
  intros Ht Hw H. destruct ws as [|c ws]; [contradiction|].
  simpl in *. apply andb_prop in H. destruct H as [Hc H]. rewrite Hc.
  destruct tok; [contradiction|]. simpl.
  rewrite split_ws_blanks by exact H. reflexivity.
Qed.

Lemma split_ws_end tok : tok <> [] -> split_ws tok [] = [rev tok].
Proof. destruct tok; [contradiction | reflexivity]. Qed.

Lemma word_no_space w :
  forallb is_word w = true ->
  forallb (fun c => negb (is_space c)) w = true.
Proof.
  induction w as [|c w IH]; simpl; intros H; [reflexivity|].
  apply andb_prop in H. destruct H as [Hc H].
  rewrite (word_not_space _ Hc), IH by exact H. reflexivity.
Qed.

Lemma word_no_brace w :
  forallb is_word w = true ->
  forallb (fun c => negb (Ascii.eqb c "{")) w = true.
Proof.
  induction w as [|c w IH]; simpl; intros H; [reflexivity|].
  apply andb_prop in H. destruct H as [Hc H]. rewrite IH by exact H.
  destruct (Ascii.eqb_spec c "{"); [subst c; discriminate Hc | reflexivity].
Qed.

Lemma blanks_no_brace w :
  forallb is_space w = true ->
  forallb (fun c => negb (Ascii.eqb c "{")) w = true.
Proof.
  induction w as [|c w IH]; simpl; intros H; [reflexivity|].
  apply andb_prop in H. destruct H as [Hc H]. rewrite IH by exact H.
  destruct (Ascii.eqb_spec c "{"); [subst c; discriminate Hc | reflexivity].
Qed.

(** The head [keyword blanks name blanks] has two tokens. *)
Lemma split_head k ws v ws2 :
  k <> [] -> v <> [] ->
  forallb is_word k = true -> forallb is_word v = true ->
  ws <> [] -> forallb is_space ws = true -> forallb is_space ws2 = true ->
  split (k ++ ws ++ v ++ ws2) = [k; v].
Proof.
  intros Hk Hv Hkw Hvw Hws Hwss Hws2. unfold split.
  rewrite split_ws_token by (apply word_no_space; exact Hkw).
  rewrite app_nil_r, split_ws_flush; auto.
  2:{ intros E. apply Hk. rewrite <- (rev_involutive k), E. reflexivity. }
  rewrite rev_involutive.
  rewrite split_ws_token by (apply word_no_space; exact Hvw).
  rewrite app_nil_r. f_equal.
  assert (Hrv : rev v <> []).
  { intros E. apply Hv. rewrite <- (rev_involutive v), E. reflexivity. }
  destruct ws2 as [|c ws2].
  - rewrite split_ws_end by exact Hrv. rewrite rev_involutive. reflexivity.
  - rewrite <- (app_nil_r (c :: ws2)).
    rewrite split_ws_flush by (auto; discriminate).
    rewrite rev_involutive. reflexivity.
Qed.

Lemma is_name_word v : is_name v = true -> v <> [] /\ forallb is_word v = true.
Proof. destruct v; [discriminate|]. intros H. split; [discriminate | exact H]. Qed.

(** The statement matcher, asked for the literal name [v], reports only
    statements whose head reads [define v]. *)
Lemma find_statement_declares code v m :
  is_name v = true ->
  In m (find_statement code re_define (lit v)) ->
  exists name,
    declared_variable (split1 "{" (slice m code)) = Ok name /\
    ci_str_eqb v name = true.
Proof.
  intros Hv Hin. apply is_name_word in Hv. destruct Hv as [Hne Hw].
  apply finditer_matched, matched_shape, shape_statement in Hin.
  destruct Hin as (k & ws & name & ws2 & tail & Hs & Hk & Hn & Hws & Hwss
                   & Hws2).
  apply shape_lit in Hk; [|reflexivity]. apply shape_lit in Hn; [|reflexivity].
  assert (Hkw : forallb is_word k = true)
    by (rewrite <- (ci_str_eqb_word _ _ Hk); reflexivity).
  assert (Hnw : forallb is_word name = true)
    by (rewrite <- (ci_str_eqb_word _ _ Hn); exact Hw).
  assert (Hkne : k <> [])
    by (apply ci_str_eqb_length in Hk; destruct k; [discriminate Hk|discriminate]).
  assert (Hnne : name <> []).
  { apply ci_str_eqb_length in Hn. destruct name; [|discriminate].
    destruct v; [contradiction | discriminate Hn]. }
  exists name. split; [|exact Hn].
  rewrite Hs.
  replace (k ++ ws ++ name ++ ws2 ++ "{"%char :: tail)
    with ((k ++ ws ++ name ++ ws2) ++ "{"%char :: tail)
    by (rewrite <- !app_assoc; reflexivity).
  rewrite split1_at.
  - unfold declared_variable. simpl.
    rewrite split_head by assumption. reflexivity.
  - rewrite !forallb_app.
    rewrite (word_no_brace _ Hkw), (word_no_brace _ Hnw),
      (blanks_no_brace _ Hwss), (blanks_no_brace _ Hws2). reflexivity.
Qed.

(** ** Word boundaries *)

Lemma last_char_word d w :
  w <> [] -> forallb is_word w = true -> is_word_opt (last_char d w) = true.
Proof.
  revert d. induction w as [|x w IH]; intros d Hne H; [contradiction|].
  simpl in H. apply andb_prop in H. destruct H as [Hx H].
  rewrite last_char_cons. destruct w as [|y w].
  - exact Hx.
  - apply IH; [discriminate | exact H].
Qed.

Lemma word_before_split (w1 s : str) :
  word_before (w1 ++ s) (length w1) = is_word_opt (last_char None w1).
Proof.
  destruct w1 as [|x w1] using rev_ind.
  - reflexivity.
  - rewrite last_char_app, length_app, Nat.add_comm. simpl.
    rewrite <- app_assoc, nth_error_app2, Nat.sub_diag by lia.
    reflexivity.
Qed.

Lemma word_after_split (w1 s : str) :
  word_after (w1 ++ s) (length w1) = is_word_opt (hd_error s).
Proof.
  unfold word_after. rewrite nth_error_app2, Nat.sub_diag by lia.
  destruct s; reflexivity.
Qed.

Lemma re_var_match v p n n' (w w2 : str) :
  is_name v = true ->
  matches I (re_var v) (Cur p n (w ++ w2)) (Cur (last_char p w) n' w2) ->
  ci_str_eqb v w = true /\
  is_word_opt p = false /\
  is_word_opt (hd_error w2) = false.
Proof.
  intros Hv Hm. apply is_name_word in Hv. destruct Hv as [Hne Hw].
  unfold re_var in Hm. cbn [cats] in Hm.
  inversion Hm as [| |r1 r2 c1 c2 c3 Hb1 Hrest| | | | | |]; subst.
  inversion Hb1 as [| | | | | | |c Hbd1|]; subst. clear Hb1.
  inversion Hrest as [| |r1 r2 c1 c2 c3 Hlit Hb2| | | | | |]; subst.
  inversion Hb2 as [| | | | | | |c Hbd2|]; subst. clear Hb2 Hrest Hm.
  destruct (matches_shape Hlit) as (w' & Hr & _ & Hsh). simpl in Hr.
  apply app_inv_tail in Hr. subst w'.
  apply shape_lit in Hsh; [|reflexivity].
  assert (Hww : forallb is_word w = true)
    by (rewrite <- (ci_str_eqb_word _ _ Hsh); exact Hw).
  assert (Hwne : w <> []).
  { apply ci_str_eqb_length in Hsh. destruct w; [|discriminate].
    destruct v; [contradiction | discriminate Hsh]. }
  split; [exact Hsh|]. split.
  - unfold at_boundary in Hbd1. simpl in Hbd1.
    destruct w as [|x w']; [contradiction|]. simpl in Hbd1, Hww.
    apply andb_prop in Hww. destruct Hww as [Hx _]. rewrite Hx in Hbd1.
    destruct (is_word_opt p); [discriminate | reflexivity].
  - unfold at_boundary in Hbd2. simpl in Hbd2.
    rewrite (last_char_word _ Hwne Hww) in Hbd2.
    destruct (is_word_opt (hd_error w2)); [discriminate | reflexivity].
Qed.

(** The search for [\bv\b] reports only whole words equal to [v] up to
    case. *)
Lemma re_var_whole_word body v m :
  is_name v = true ->
  In m (finditer (re_var v) body I) ->
  ci_str_eqb v (slice m body) = true /\
  word_before body (fst m) = false /\
  word_after body (snd m) = false.
Proof.
  intros Hv Hin.
  apply finditer_matched, matched_slice in Hin.
  destruct Hin as (w1 & w2 & Hb & Hs & He & Hm).
  destruct (@re_var_match v _ _ _ _ _ Hv Hm) as (Hci & Hp & Hn).
  split; [exact Hci|]. split.
  - rewrite Hb, Hs, word_before_split. exact Hp.
  - rewrite Hb, He, app_assoc, <- length_app, word_after_split. exact Hn.
Qed.

(** C4. A statement is reported for the literal name [v] only if the
    variable it declares is [v] itself (up to case), so a statement whose
    declared name merely contains [v] is never a match; and the search of
    Pass 3 for [v] in a statement body reports only occurrences of [v]
    (up to case) that have no word character on either side. *)
Theorem whole_word_matching (v : str) :
  is_name v = true ->
  (forall code m,
      In m (find_statement code re_define (lit v)) ->
      exists name,
        declared_variable (split1 "{" (slice m code)) = Ok name /\
        ci_str_eqb v name = true)
  /\
  (forall body m,
      In m (finditer (re_var v) body I) ->
      ci_str_eqb v (slice m body) = true /\
      word_before body (fst m) = false /\
      word_after body (snd m) = false).
Proof.
  intros Hv. split.
  - intros code m. apply find_statement_declares. exact Hv.
  - intros body m. apply re_var_whole_word. exact Hv.
Qed.

Lemma whole_word_matching_witness :
  is_name Sample.S_SHSTA = true /\
  exists name,
    declared_variable
      (split1 "{" (slice (0, 18) (txt "define S_SHSTA { }"))) = Ok name /\
    ci_str_eqb Sample.S_SHSTA name = true.
Proof.
  split; [reflexivity|].
  apply (proj1 (whole_word_matching Sample.S_SHSTA eq_refl)).
  vm_compute. left. reflexivity.
Defined.

(** Longer names on either side are not matches. *)
Example longer_names_do_not_match :
  find_statement (txt "define S_SHSTA_2 { 1 } define XS_SHSTA { 2 }")
                 re_define (lit Sample.S_SHSTA) = []
  /\ finditer (re_var Sample.S_SHSTA)
              (txt " S_SHSTA_2 + XS_SHSTA + s_shsta ") I = [(24, 31)].
Proof. split; vm_compute; reflexivity. Qed.

(** ** The resolver *)

Lemma flat_map_nil {T U} (g : T -> list U) l :
  (forall x, In x l -> g x = []) -> flat_map g l = [].
Proof.
  induction l as [|x l IH]; intros H; simpl; [reflexivity|].
  rewrite H by (left; reflexivity). apply IH.
  intros y Hy. apply H. right. exact Hy.
Qed.

Lemma find_definitions_nil wresl_code var :
  (forall k v, In (k, v) wresl_code ->
               find_statement (remove_cases (remove_comments v))
                              re_define (lit var) = []) ->
  find_definitions wresl_code var = [].
Proof.
  intros H. unfold find_definitions. apply flat_map_nil.
  intros [k v] Hin. rewrite (H _ _ Hin). reflexivity.
Qed.

(** C1. For a variable name, when Pass 1 finds no definition of it in
    any file, the call ends at once: it does not raise, it prints the one
    line that says the variable was not found (no report is printed or
    written), and it returns [None].  Conversely a call that returns a
    dictionary returns one whose [defined] collection is not empty. *)
Theorem not_found_is_a_result {O : SetOrder} (fs : study_dir)
        (study var output_file : str) (verbose : bool) :
  path_exists fs = true ->
  is_name var = true ->
  ((forall k v, In (k, v) (wresl_files fs) ->
                find_statement (remove_cases (remove_comments v))
                               re_define (lit var) = []) ->
   main fs study var output_file verbose
   = Ok (Run [txt "Variable " ++ var ++ txt " not found in " ++ study
              ++ txt "."]
             None None))
  /\
  (forall r d,
      main fs study var output_file verbose = Ok r ->
      returned r = Some d ->
      defined d <> []).
Proof.
  intros He _. unfold main. rewrite He. cbn [negb]. split.
  - intros H. rewrite (find_definitions_nil _ _ H). reflexivity.
  - intros r d Hr Hd.
    destruct (find_definitions (wresl_files fs) var) as [|x l] eqn:Hdef.
    + inversion Hr; subst r. discriminate Hd.
    + destruct (find_statement_inputs (wresl_files fs) (x :: l));
        [|discriminate Hr].
      cbn [bind] in Hr.
      destruct (find_dependents (wresl_files fs) var); [|discriminate Hr].
      cbn [bind] in Hr. inversion Hr; subst r. cbn [returned] in Hd.
      inversion Hd; subst d. discriminate.
Qed.

Lemma not_found_is_a_result_witness :
  (path_exists (Sample.study Sample.redefine) = true /\
   is_name (txt "Y") = true /\
   main (Sample.study Sample.redefine) (txt "CalSim3") (txt "Y") [] true
   = Ok (Run [txt "Variable Y not found in CalSim3."] None None))
  /\
  (is_name (txt "X") = true /\
   defined (Results [(txt "X", Sample.a_wresl, (None, None), (2, 14))] [] [])
   <> []).
Proof.
  split; (split; [reflexivity|]).
  - split; [reflexivity|].
    apply (proj1 (@not_found_is_a_result last_occurrence_order
                    (Sample.study Sample.redefine)
                    (txt "CalSim3") (txt "Y") [] true eq_refl eq_refl)).
    intros k v [H|[]]. inversion H; subst. vm_compute. reflexivity.
  - eapply (proj2 (@not_found_is_a_result last_occurrence_order
                     (Sample.study Sample.redefine)
                     (txt "CalSim3") (txt "X") [] false eq_refl eq_refl)).
    + vm_compute. reflexivity.
    + reflexivity.
Defined.

(** ** Enumerations of a set *)


Lemma list_set_singleton {O : SetOrder} y : list_set [y] = [y].
Proof.
  pose proof (list_set_NoDup [y]) as Hnd.
  pose proof (list_set_In [y]) as Hin.
  destruct (list_set [y]) as [|a l].
  - exfalso. apply (proj2 (Hin y)). left. reflexivity.
  - assert (Ha : In a [y]) by (apply (proj1 (Hin a)); left; reflexivity).
    destruct Ha as [Ha|[]]. subst a. destruct l as [|b l]; [reflexivity|].
    assert (Hb : In b [y])
      by (apply (proj1 (Hin b)); right; left; reflexivity).
    destruct Hb as [Hb|[]]. subst b. inversion Hnd as [|? ? Hn _]. exfalso. apply Hn. left.
    reflexivity.
Qed.


(** ** The passes do not raise *)

Lemma blanked_sanitized v ms t :
  blanked v ms t -> length t = length v -> sanitized_of v t.
Proof.
  intros Hb Hl. split; [exact Hl|]. intros i c Hc. rewrite Hb in Hc.
  destruct (existsb (covers i) ms).
  - left. inversion Hc. reflexivity.
  - right. exact Hc.
Qed.

Lemma sanitized_trans v t u :
  sanitized_of v t -> sanitized_of t u -> sanitized_of v u.
Proof.
  intros [Hl1 H1] [Hl2 H2]. split; [congruence|].
  intros i c Hc. destruct (H2 _ _ Hc) as [->|Hc']; [left; reflexivity|].
  apply H1. exact Hc'.
Qed.

Lemma sanitized_code v : sanitized_of v (remove_cases (remove_comments v)).
Proof.
  apply sanitized_trans with (t := remove_comments v).
  - eapply blanked_sanitized;
      [apply remove_comments_blanked | apply remove_comments_length].
  - eapply blanked_sanitized;
      [apply remove_cases_blanked | apply remove_cases_length].
Qed.

Lemma nth_error_slice (m : span) (s : str) j :
  j < snd m - fst m -> nth_error (slice m s) j = nth_error s (fst m + j).
Proof.
  intros Hj. unfold slice. rewrite nth_error_firstn, nth_error_skipn.
  destruct (Nat.ltb_spec j (snd m - fst m)); [reflexivity | lia].
Qed.

Lemma slice_length (m : span) (s : str) :
  fst m <= snd m <= length s -> length (slice m s) = snd m - fst m.
Proof.
  intros H. unfold slice. rewrite length_firstn, length_skipn. lia.
Qed.










Lemma find_definitions_In wresl_code s rec :
  In rec (find_definitions wresl_code s) ->
  exists k v m,
    rec = (s, k, line_numbers m v, m) /\ In (k, v) wresl_code /\
    In m (find_statement (remove_cases (remove_comments v))
                         re_define (lit s)).
Proof.
  unfold find_definitions. rewrite in_flat_map.
  intros ([k v] & Hkv & Hin). apply in_map_iff in Hin.
  destruct Hin as (m & <- & Hm). eauto 7.
Qed.






(** ** Line numbers *)

Lemma ci_eqb_newline x : ci_eqb newline x = Ascii.eqb x newline.
Proof. ascii_cases x; reflexivity. Qed.

Lemma first_line_end_gt s : forall n e, first_line_end n s = Some e -> n < e.
Proof.
  induction s as [|x s IH]; intros n e H; simpl in H; [discriminate|].
  destruct (Ascii.eqb x newline).
  - inversion H. lia.
  - apply IH in H. lia.
Qed.

Lemma star_lines b n0 s :
  forall p n,
    n0 <= n ->
    star_greedy I Dot
      (fun c' => exec I (Atom (Lit newline)) c' (accept b n0)) p n s
    = first_line_end n s.
Proof.
  induction s as [|x s IH]; intros p n Hn; [reflexivity|].
  cbn [star_greedy first_line_end atom_ok DOTALL I orb].
  destruct (Ascii.eqb x newline) eqn:Hx; cbn [negb].
  - cbn [exec rest atom_ok IGNORECASE I pos]. rewrite ci_eqb_newline, Hx.
    unfold accept. cbn [pos].
    destruct (Nat.eqb_spec (S n) n0); [lia|].
    rewrite andb_false_r. reflexivity.
  - rewrite IH by lia.
    destruct (first_line_end (S n) s); [reflexivity|].
    cbn [exec rest atom_ok IGNORECASE I pos]. rewrite ci_eqb_newline, Hx.
    reflexivity.
Qed.

Lemma match_at_lines b p n s :
  match_at I re_lines b (Cur p n s) = first_line_end n s.
Proof. unfold match_at. apply star_lines. apply Nat.le_refl. Qed.

Lemma line_spans_none s : forall start n,
  first_line_end n s = None -> line_spans start n s = [].
Proof.
  induction s as [|x s IH]; intros start n H; simpl in *; [reflexivity|].
  destruct (Ascii.eqb x newline); [discriminate | auto].
Qed.

(** The scan for [.*\n] yields the lines that end with a line break. *)
Lemma scan_lines s :
  forall p n resume,
    (resume <= n -> scan I re_lines resume p n s = line_spans n n s) /\
    (n < resume -> first_line_end n s = Some resume ->
     forall start,
       line_spans start n s = (start, resume) :: scan I re_lines resume p n s).
Proof.
  induction s as [|x s IH]; intros p n resume.
  - split; [|discriminate]. intros Hr. simpl.
    destruct (Nat.ltb_spec n resume); [lia|]. reflexivity.
  - split.
    + intros Hr. cbn [scan]. rewrite match_at_lines.
      destruct (Nat.ltb_spec n resume); [lia|].
      cbn [first_line_end line_spans].
      destruct (Ascii.eqb x newline) eqn:Hx.
      * destruct (Nat.eqb_spec (S n) n); [lia|].
        f_equal. apply IH. apply Nat.le_refl.
      * destruct (first_line_end (S n) s) as [e|] eqn:He.
        -- pose proof (first_line_end_gt _ _ He) as Hgt.
           destruct (Nat.eqb_spec e n); [lia|]. symmetry.
           apply (proj2 (IH (Some x) (S n) e)); [lia | exact He].
        -- rewrite line_spans_none by exact He.
           rewrite (proj1 (IH (Some x) (S n) resume)) by lia.
           apply line_spans_none. exact He.
    + intros Hr He start. cbn [scan].
      destruct (Nat.ltb_spec n resume); [|lia].
      cbn [first_line_end line_spans] in *.
      destruct (Ascii.eqb x newline) eqn:Hx.
      * inversion He; subst resume. f_equal. symmetry.
        apply IH. apply Nat.le_refl.
      * pose proof (first_line_end_gt _ _ He) as Hgt.
        apply (proj2 (IH (Some x) (S n) resume)); [lia | exact He].
Qed.

Lemma finditer_lines code : finditer re_lines code I = line_spans 0 0 code.
Proof. apply scan_lines. apply Nat.le_refl. Qed.

Lemma line_numbers_fold m code :
  line_numbers m code =
  (fold_left (pick (fst m)) (enumerate1 (finditer re_lines code I)) None,
   fold_left (pick (snd m)) (enumerate1 (finditer re_lines code I)) None).
Proof.
  unfold line_numbers.
  generalize (enumerate1 (finditer re_lines code I)).
  generalize (@None nat) at 1 3. generalize (@None nat).
  intros b a l. revert a b.
  induction l as [|[i line] l IH]; intros a b; [reflexivity|].
  cbn [fold_left]. rewrite IH. reflexivity.
Qed.

Lemma fold_line_spans o s :
  forall start n i acc,
    fold_left (pick o)
      (combine (seq i (length (line_spans start n s)))
               (line_spans start n s)) acc
    = locate o start n i s acc.
Proof.
  induction s as [|x s IH]; intros start n i acc; [reflexivity|].
  cbn [line_spans locate]. destruct (Ascii.eqb x newline).
  - cbn [length seq combine fold_left]. apply IH.
  - apply IH.
Qed.

Lemma locate_decided o s :
  forall start n i acc,
    o < start -> start <= n -> locate o start n i s acc = acc.
Proof.
  induction s as [|x s IH]; intros start n i acc Ho Hn; [reflexivity|].
  cbn [locate]. destruct (Ascii.eqb x newline).
  - rewrite IH by lia. unfold pick. cbn [fst snd].
    destruct (Nat.leb_spec start o); [lia | reflexivity].
  - apply IH; lia.
Qed.

Lemma locate_found o s :
  forall start n i acc,
    start <= n -> start <= o -> In newline (skipn (o - n) s) ->
    locate o start n i s acc
    = Some (i + count_occ ascii_dec (firstn (o - n) s) newline).
Proof.
  induction s as [|x s IH]; intros start n i acc Hn Ho Hin.
  - rewrite skipn_nil in Hin. destruct Hin.
  - cbn [locate]. destruct (Ascii.eqb_spec x newline) as [->|Hx].
    + destruct (Nat.le_gt_cases o n) as [Hle|Hgt].
      * (* the offset is on the line that ends here *)
        rewrite locate_decided by lia.
        replace (o - n) with 0 by lia. unfold pick. cbn [fst snd firstn].
        destruct (Nat.leb_spec start o); [|lia].
        destruct (Nat.leb_spec o (S n)); [|lia].
        cbn [andb count_occ]. f_equal. lia.
      * replace (o - n) with (S (o - S n)) in * by lia.
        cbn [skipn firstn] in *. rewrite IH by (auto; lia).
        rewrite count_occ_cons_eq by reflexivity. f_equal. lia.
    + destruct (Nat.le_gt_cases o n) as [Hle|Hgt].
      * replace (o - n) with 0 in * by lia. cbn [skipn firstn] in *.
        destruct Hin as [E|Hin]; [contradiction|].
        assert (E : o - S n = 0) by lia.
        rewrite IH; rewrite ?E; [reflexivity | lia | lia | exact Hin].
      * replace (o - n) with (S (o - S n)) in * by lia.
        cbn [skipn firstn] in *. rewrite IH by (auto; lia).
        rewrite count_occ_cons_neq by exact Hx. reflexivity.
Qed.

(** Where a line break follows, [line_numbers] is right: an offset that
    has a line break at or after it is attributed to the line on which it
    lies. *)
Lemma line_numbers_on_terminated_lines m code :
  In newline (skipn (fst m) code) ->
  In newline (skipn (snd m) code) ->
  line_numbers m code
  = (Some (line_of code (fst m)), Some (line_of code (snd m))).
Proof.
  intros H1 H2. rewrite line_numbers_fold. unfold enumerate1, line_of.
  rewrite finditer_lines, !fold_line_spans.
  rewrite !locate_found by (rewrite ?Nat.sub_0_r; auto; lia).
  rewrite !Nat.sub_0_r. reflexivity.
Qed.

(** ** Pass 1 and the removed spans *)

Lemma blanked_kept v ms t i c :
  blanked v ms t -> nth_error t i = Some c -> c <> space ->
  existsb (covers i) ms = false /\ nth_error v i = Some c.
Proof.
  intros Hb Hc Hsp. rewrite Hb in Hc.
  destruct (existsb (covers i) ms).
  - inversion Hc. congruence.
  - auto.
Qed.

Lemma nth_error_slice_full (m : span) (s : str) j :
  nth_error (slice m s) j =
  if j <? snd m - fst m then nth_error s (fst m + j) else None.
Proof. unfold slice. rewrite nth_error_firstn, nth_error_skipn. reflexivity. Qed.

(** X14. A definition reported by Pass 1 shows the name in the raw text
    of the file, outside every comment span and every case span that the
    sanitizer removes.  So a name whose occurrences all lie in removed
    spans is not reported. *)
Lemma reported_name_is_outside_removed_spans v var m :
  is_name var = true ->
  In m (find_statement (remove_cases (remove_comments v))
                       re_define (lit var)) ->
  exists p,
    fst m < p /\ p + length var < snd m /\
    ci_str_eqb var (slice (p, p + length var) v) = true /\
    forall i, p <= i < p + length var ->
              existsb (covers i) (comment_spans v) = false /\
              existsb (covers i) (case_spans (remove_comments v)) = false.
Proof.
  intros Hv Hin. apply is_name_word in Hv. destruct Hv as [Hne Hw].
  set (t1 := remove_comments v) in *. set (t := remove_cases t1) in *.
  pose proof (remove_comments_blanked v) as B1.
  pose proof (remove_cases_blanked t1) as B2.
  fold t1 in B1. fold t in B2.
  apply finditer_matched in Hin.
  pose proof (matched_bounds Hin) as Hb.
  destruct (matched_slice Hin) as (w1 & w2 & Ht & Hs & He & _).
  apply matched_shape, shape_statement in Hin.
  destruct Hin as (k & ws & nm & ws2 & tail & Hsl & Hk & Hn & Hws & _).
  apply shape_lit in Hk; [|reflexivity]. apply shape_lit in Hn; [|reflexivity].
  assert (Hnw : forallb is_word nm = true)
    by (rewrite <- (ci_str_eqb_word _ _ Hn); exact Hw).
  pose proof (ci_str_eqb_length _ _ Hn) as Hlen.
  pose proof (ci_str_eqb_length _ _ Hk) as Hklen. simpl in Hklen.
  set (p := fst m + length (k ++ ws)).
  assert (Hsize : length (slice m t)
                  = length (k ++ ws) + length nm
                    + S (length ws2 + length tail)).
  { rewrite Hsl. repeat (rewrite length_app || cbn [length]). lia. }
  rewrite slice_length in Hsize by exact Hb.
  (* each character of the name, at its place in the sanitized text *)
  assert (Hchar : forall j c, nth_error nm j = Some c ->
                              nth_error t (p + j) = Some c /\
                              is_word c = true).
  { intros j c Hj.
    assert (Hjl : j < length nm) by (apply nth_error_Some; congruence).
    split.
    - rewrite <- Hj. unfold p. rewrite <- Nat.add_assoc.
      rewrite <- (nth_error_slice m t) by lia.
      rewrite Hsl, app_assoc, nth_error_app2 by lia.
      replace (length (k ++ ws) + j - length (k ++ ws)) with j by lia.
      apply nth_error_app1. exact Hjl.
    - apply nth_error_In in Hj. rewrite forallb_forall in Hnw. auto. }
  assert (Hraw : forall j c, nth_error nm j = Some c ->
                   existsb (covers (p + j)) (comment_spans v) = false /\
                   existsb (covers (p + j)) (case_spans t1) = false /\
                   nth_error v (p + j) = Some c).
  { intros j c Hj. destruct (Hchar _ _ Hj) as [Hc Hcw].
    assert (Hsp : c <> space) by (intros ->; discriminate Hcw).
    destruct (blanked_kept _ B2 Hc Hsp) as [Hcase Hc1].
    destruct (blanked_kept _ B1 Hc1 Hsp) as [Hcom Hc0]. auto. }
  exists p. rewrite Hlen. repeat split.
  - unfold p. rewrite length_app. destruct k; [discriminate Hklen|].
    simpl. lia.
  - unfold p. lia.
  - replace (slice (p, p + length nm) v) with nm; [exact Hn|].
    apply nth_error_ext. intros j. rewrite nth_error_slice_full.
    cbn [fst snd]. replace (p + length nm - p) with (length nm) by lia.
    destruct (Nat.ltb_spec j (length nm)) as [Hj|Hj].
    + destruct (nth_error nm j) as [c|] eqn:E.
      * symmetry. apply (Hraw _ _ E).
      * apply nth_error_None in E. lia.
    + apply nth_error_None. exact Hj.
  - destruct (nth_error nm (i - p)) as [c|] eqn:E.
    + replace i with (p + (i - p)) by lia. apply (Hraw _ _ E).
    + apply nth_error_None in E. lia.
  - destruct (nth_error nm (i - p)) as [c|] eqn:E.
    + replace i with (p + (i - p)) by lia. apply (Hraw _ _ E).
    + apply nth_error_None in E. lia.
Qed.

(** ** The statement kind is not matched as a whole word *)

(** C10. In the text [redefine X { }] the statement matcher finds a
    [define] statement at offset 2, in the middle of the word [redefine],
    and Pass 1 reports [X] as defined there. *)
Theorem define_matches_inside_a_word :
  find_statement (txt "redefine X { }") re_define (lit (txt "X"))
  = [(2, 14)] /\
  word_before (txt "redefine X { }") 2 = true /\
  slice (2, 14) (txt "redefine X { }") = txt "define X { }" /\
  find_definitions Sample.redefine (txt "X")
  = [(txt "X", Sample.a_wresl, (None, None), (2, 14))].
Proof. repeat split; vm_compute; reflexivity. Qed.

(** ** Where the program departs from its specification *)

(** C5. A line comment that ends the file without a line break is not
    removed, so a statement that stands after the [!] is reported as a
    definition; with a line break after it, the same comment is removed
    and nothing is reported. *)
Theorem unterminated_line_comment_is_searched :
  remove_comments (txt "! define X { }") = txt "! define X { }" /\
  find_definitions Sample.commented_out (txt "X")
  = [(txt "X", Sample.a_wresl, (None, None), (2, 14))] /\
  find_definitions (Sample.with_final_newline Sample.commented_out)
                   (txt "X") = [].
Proof. repeat split; vm_compute; reflexivity. Qed.

(** C6. Pass 2 applies only the strip of non-variable tokens to a
    definition body: a name that the body mentions in a comment only is a
    candidate input, and is reported as an input when it is defined.
    Were the comments removed from the files beforehand, the definition
    would have no candidate input. *)
Theorem comment_word_is_an_input {O : SetOrder}
        (absolute study output_file : str) (verbose : bool) :
  find_statement_inputs Sample.comment_in_body
    (find_definitions Sample.comment_in_body (txt "X")) = Ok [txt "Y"] /\
  find_statement_inputs (Sample.without_comments Sample.comment_in_body)
    (find_definitions (Sample.without_comments Sample.comment_in_body)
                      (txt "X")) = Ok [] /\
  exists r,
    main (Study true Sample.comment_in_body absolute)
         study (txt "X") output_file verbose = Ok r /\
    returned r =
    Some (Results [(txt "X", Sample.a_wresl, (Some 1, Some 1), (0, 22))]
                  [(txt "Y", Sample.b_wresl, (Some 1, Some 1), (0, 14))]
                  []).
Proof.
  assert (Hd : find_definitions Sample.comment_in_body (txt "X")
               = [(txt "X", Sample.a_wresl, (Some 1, Some 1), (0, 22))])
    by (vm_compute; reflexivity).
  assert (Hi : find_statement_inputs Sample.comment_in_body
                 [(txt "X", Sample.a_wresl, (Some 1, Some 1), (0, 22))]
               = Ok [txt "Y"])
    by (vm_compute; reflexivity).
  assert (Hy : find_definitions Sample.comment_in_body (txt "Y")
               = [(txt "Y", Sample.b_wresl, (Some 1, Some 1), (0, 14))])
    by (vm_compute; reflexivity).
  assert (Hp : find_dependents Sample.comment_in_body (txt "X") = Ok [])
    by (vm_compute; reflexivity).
  rewrite Hd. split; [exact Hi|]. split; [vm_compute; reflexivity|].
  unfold main. cbn [path_exists wresl_files negb abspath].
  rewrite Hd, Hi. cbn [bind]. rewrite Hp. cbn [bind].
  eexists. split; [reflexivity|]. cbn [returned]. unfold find_inputs.
  rewrite list_set_singleton. cbn [flat_map]. rewrite Hy. reflexivity.
Qed.

(** C7. Pass 3 searches the raw text of a statement body: a goal whose
    body names the queried variable in a comment only is recorded as a
    dependent.  Were the comments removed from the files beforehand,
    there would be no dependent. *)
Theorem comment_makes_a_dependent :
  find_dependents Sample.comment_in_goal (txt "S")
  = Ok [(txt "G1", Sample.b_wresl, (Some 1, Some 1), (0, 25))] /\
  find_dependents (Sample.without_comments Sample.comment_in_goal) (txt "S")
  = Ok [].
Proof. split; vm_compute; reflexivity. Qed.

(** C9. A last line without a line break is not among the lines that
    [line_numbers] considers: for a span that lies on the second line of
    [two_lines], the start is reported on line 1 and the end on no
    line. *)
Theorem unterminated_last_line_is_not_counted :
  slice (2, 3) Sample.two_lines = txt "b" /\
  line_of Sample.two_lines 2 = 2 /\
  line_of Sample.two_lines 3 = 2 /\
  line_numbers (2, 3) Sample.two_lines = (Some 1, None).
Proof. repeat split; vm_compute; reflexivity. Qed.

(** * Further properties *)

(** ** The matcher finds what the pattern matches *)

Section Completeness.
Variable f : flags.
Variable A : Type.

Lemma star_greedy_complete a (k : cursor -> option A) c c' y :
  repeats f a c c' -> k c' = Some y ->
  exists y', star_greedy f a k (prev c) (pos c) (rest c) = Some y'.
Proof.
  induction 1 as [[p n s]|p n x s c' Hx _ IH]; intros Hk.
  - cbn [prev pos rest]. destruct s as [|x s]; simpl; [eauto|].
    destruct (atom_ok f a x); [|eauto].
    destruct (star_greedy f a k (Some x) (S n) s); eauto.
  - cbn [prev pos rest] in *. simpl. rewrite Hx.
    destruct (IH Hk) as (y' & ->). eauto.
Qed.

Lemma star_lazy_complete a (k : cursor -> option A) c c' y :
  repeats f a c c' -> k c' = Some y ->
  exists y', star_lazy f a k (prev c) (pos c) (rest c) = Some y'.
Proof.
  induction 1 as [[p n s]|p n x s c' Hx _ IH]; intros Hk.
  - cbn [prev pos rest]. destruct s as [|x s]; simpl; rewrite Hk; eauto.
  - cbn [prev pos rest] in *. simpl.
    destruct (k (Cur p n (x :: s))); [eauto|]. rewrite Hx. auto.
Qed.

Lemma exec_complete r c c' :
  matches f r c c' ->
  forall (k : cursor -> option A) y,
    k c' = Some y -> exists y', exec f r c k = Some y'.
Proof.
  induction 1 as [c|a p n x s Hx|r1 r2 c1 c2 c3 _ IH1 _ IH2|a c c' Hr
                 |a c c' Hr|a p n x s Hx|a c|c Hb|a p n x s Hx];
    intros k y Hk.
  - simpl. eauto.
  - simpl. rewrite Hx. eauto.
  - simpl. destruct (IH2 _ _ Hk) as (y2 & H2). exact (IH1 _ _ H2).
  - simpl. eapply star_greedy_complete; eauto.
  - simpl. eapply star_lazy_complete; eauto.
  - simpl. rewrite Hx. rewrite Hk. eauto.
  - simpl. destruct (rest c) as [|x s]; [eauto|].
    destruct (atom_ok f a x); [|eauto].
    destruct (k (Cur (Some x) (S (pos c)) s)); eauto.
  - simpl. rewrite Hb. eauto.
  - simpl. rewrite Hx. eauto.
Qed.

End Completeness.

(** ** The scan: order and coverage *)

Lemma ordered_le lo lo' l : lo' <= lo -> ordered lo l = true -> ordered lo' l = true.
Proof.
  destruct l as [|m l]; [reflexivity|]. simpl. intros Hle H.
  apply andb_prop in H. destruct H as [H H3].
  apply andb_prop in H. destruct H as [H1 H2].
  apply Nat.leb_le in H1. rewrite H2, H3.
  destruct (Nat.leb_spec lo' (fst m)); [reflexivity | lia].
Qed.

Lemma match_at_ge f r b p n s e :
  match_at f r b (Cur p n s) = Some e -> n <= e.
Proof.
  intros H. destruct (match_at_sound _ _ _ _ _ _ H) as (w & w2 & _ & -> & _).
  lia.
Qed.

Lemma match_at_true_gt f r p n s e :
  match_at f r true (Cur p n s) = Some e -> n < e.
Proof.
  intros H. pose proof (match_at_ge _ _ _ _ _ _ H) as Hge.
  unfold match_at in H. destruct (exec_sound _ _ _ _ H) as (c' & _ & Ha).
  unfold accept in Ha. cbn [pos andb] in Ha.
  destruct (Nat.eqb_spec (pos c') n); [discriminate|].
  inversion Ha; subst e. lia.
Qed.

Lemma ordered_cons lo n e l :
  lo <= n -> n <= e -> ordered e l = true -> ordered lo ((n, e) :: l) = true.
Proof.
  intros H1 H2 H3. simpl. rewrite H3.
  destruct (Nat.leb_spec lo n); [|lia].
  destruct (Nat.leb_spec n e); [reflexivity | lia].
Qed.

Lemma scan_ordered f r s :
  forall resume p n,
    ordered (Nat.max resume n) (scan f r resume p n s) = true.
Proof.
  induction s as [|x s IH]; intros resume p n.
  - simpl. destruct (Nat.ltb_spec n resume); [reflexivity|].
    destruct (match_at f r false (Cur p n [])) as [e|] eqn:H1;
      [|reflexivity].
    pose proof (match_at_ge _ _ _ _ _ _ H1).
    destruct (Nat.eqb_spec e n) as [->|_].
    + apply ordered_cons; [lia | lia |].
      destruct (match_at f r true (Cur p n [])) as [e'|] eqn:H2;
        [|reflexivity].
      pose proof (match_at_ge _ _ _ _ _ _ H2).
      apply ordered_cons; [lia | lia | reflexivity].
    + apply ordered_cons; [lia | lia | reflexivity].
  - assert (Hnext : forall resume' lo,
               lo <= Nat.max resume' (S n) ->
               ordered lo (scan f r resume' (Some x) (S n) s) = true).
    { intros resume' lo Hlo. eapply ordered_le; [exact Hlo | apply IH]. }
    simpl. destruct (Nat.ltb_spec n resume); [apply Hnext; lia|].
    destruct (match_at f r false (Cur p n (x :: s))) as [e|] eqn:H1;
      [|apply Hnext; lia].
    pose proof (match_at_ge _ _ _ _ _ _ H1).
    destruct (Nat.eqb_spec e n) as [->|_].
    + apply ordered_cons; [lia | lia |].
      destruct (match_at f r true (Cur p n (x :: s))) as [e'|] eqn:H2;
        [|apply Hnext; lia].
      pose proof (match_at_ge _ _ _ _ _ _ H2).
      apply ordered_cons; [lia | lia | apply Hnext; lia].
    + apply ordered_cons; [lia | lia | apply Hnext; lia].
Qed.

Lemma finditer_ordered r code f : ordered 0 (finditer r code f) = true.
Proof. apply (scan_ordered f r code 0 None 0). Qed.

Lemma ordered_In lo l m :
  ordered lo l = true -> In m l -> lo <= fst m /\ fst m <= snd m.
Proof.
  revert lo. induction l as [|m' l IH]; intros lo H Hin; [destruct Hin|].
  simpl in H. apply andb_prop in H. destruct H as [H H3].
  apply andb_prop in H. destruct H as [H1 H2].
  apply Nat.leb_le in H1. apply Nat.leb_le in H2.
  destruct Hin as [<-|Hin]; [lia|].
  destruct (IH _ H3 Hin). lia.
Qed.

(** Coverage: an offset at which the pattern has a match that is not
    empty is the start of a reported span or lies inside one. *)
Lemma scan_complete f r w1 :
  forall p n resume rest t,
    t = n + length w1 -> resume <= t ->
    (forall b, exists e,
        match_at f r b (Cur (last_char p w1) t rest) = Some e) ->
    exists m, In m (scan f r resume p n (w1 ++ rest)) /\
              fst m <= t < snd m.
Proof.
  assert (Hhere : forall p n (s : str) e,
             (exists e', match_at f r true (Cur p n s) = Some e') ->
             match_at f r false (Cur p n s) = Some e ->
             forall tl1 tl2,
             exists m,
               In m (if e =? n
                     then (n, n) ::
                          match match_at f r true (Cur p n s) with
                          | Some e' => (n, e') :: tl1 e'
                          | None => tl2
                          end
                     else (n, e) :: tl1 e) /\
               fst m <= n < snd m).
  { intros p n s e (e' & H2) H1 tl1 tl2.
    pose proof (match_at_ge _ _ _ _ _ _ H1).
    pose proof (match_at_true_gt _ _ _ _ _ H2).
    destruct (Nat.eqb_spec e n) as [->|Hne].
    - rewrite H2. exists (n, e'). split; [right; left; reflexivity|].
      simpl. lia.
    - exists (n, e). split; [left; reflexivity|]. simpl. lia. }
  induction w1 as [|x w1 IH]; intros p n resume rest t Ht Hr Hm.
  - simpl in Ht. rewrite Nat.add_0_r in Ht. subst t. cbn [app last_char] in *.
    change (last_char p []) with p in Hm.
    destruct (Hm false) as (e & H1).
    destruct rest as [|x s]; simpl;
      (destruct (Nat.ltb_spec n resume); [lia|]); rewrite H1.
    + apply (Hhere p n [] e (Hm true) H1 (fun _ => []) []).
    + apply (Hhere p n (x :: s) e (Hm true) H1
               (fun e' => scan f r e' (Some x) (S n) s)
               (scan f r resume (Some x) (S n) s)).
  - simpl in Ht. rewrite last_char_cons in Hm.
    assert (Hnext : forall resume',
               resume' <= t ->
               exists m, In m (scan f r resume' (Some x) (S n) (w1 ++ rest))
                         /\ fst m <= t < snd m).
    { intros resume' Hle. apply (IH (Some x) (S n) resume' rest t);
        [lia | exact Hle | exact Hm]. }
    cbn [app scan].
    destruct (Nat.ltb_spec n resume); [apply Hnext; lia|].
    destruct (match_at f r false (Cur p n (x :: w1 ++ rest))) as [e|] eqn:H1;
      [|apply Hnext; lia].
    pose proof (match_at_ge _ _ _ _ _ _ H1).
    destruct (Nat.eqb_spec e n) as [->|Hne].
    + destruct (match_at f r true (Cur p n (x :: w1 ++ rest)))
        as [e'|] eqn:H2.
      * destruct (Nat.le_gt_cases e' t) as [Hle|Hgt].
        -- destruct (Hnext e' Hle) as (m & Hin & Hc).
           exists m. split; [right; right; exact Hin | exact Hc].
        -- exists (n, e'). split; [right; left; reflexivity|]. simpl. lia.
      * destruct (Hnext resume) as (m & Hin & Hc); [lia|].
        exists m. split; [right; exact Hin | exact Hc].
    + destruct (Nat.le_gt_cases e t) as [Hle|Hgt].
      * destruct (Hnext e Hle) as (m & Hin & Hc).
        exists m. split; [right; exact Hin | exact Hc].
      * exists (n, e). split; [left; reflexivity|]. simpl. lia.
Qed.

Lemma finditer_complete f r code m :
  matched f r code m -> fst m < snd m ->
  exists m', In m' (finditer r code f) /\ fst m' <= fst m < snd m'.
Proof.
  intros (w1 & w & w2 & -> & Hs & He & Hm) Hlt.
  rewrite Hs. unfold finditer.
  apply (@scan_complete f r w1 None 0 0 (w ++ w2) (length w1));
    [reflexivity | lia |].
  intros b. unfold match_at.
  eapply exec_complete; [exact Hm|].
  unfold accept. cbn [pos].
  destruct (Nat.eqb_spec (length w1 + length w) (length w1)); [lia|].
  rewrite andb_false_r. reflexivity.
Qed.

Lemma scan_match f r s :
  forall resume p n m,
    In m (scan f r resume p n s) ->
    exists b w1 rest,
      s = w1 ++ rest /\ fst m = n + length w1 /\
      match_at f r b (Cur (last_char p w1) (fst m) rest) = Some (snd m).
Proof.
  assert (Hhead : forall p n (s0 : str) b e m,
             match_at f r b (Cur p n s0) = Some e -> m = (n, e) ->
             exists b w1 rest,
               s0 = w1 ++ rest /\ fst m = n + length w1 /\
               match_at f r b (Cur (last_char p w1) (fst m) rest)
               = Some (snd m)).
  { intros p n s0 b e m H ->. exists b, [], s0. simpl.
    rewrite Nat.add_0_r. auto. }
  induction s as [|x s IH]; intros resume p n m Hin.
  - simpl in Hin.
    destruct (n <? resume); [destruct Hin|].
    destruct (match_at f r false (Cur p n [])) as [e|] eqn:H1;
      [|destruct Hin].
    destruct (Nat.eqb_spec e n) as [->|_].
    + destruct Hin as [<-|Hin]; [eapply Hhead; eauto|].
      destruct (match_at f r true (Cur p n [])) as [e'|] eqn:H2;
        [|destruct Hin].
      destruct Hin as [<-|[]]. eapply Hhead; eauto.
    + destruct Hin as [<-|[]]. eapply Hhead; eauto.
  - assert (Hnext : forall resume',
               In m (scan f r resume' (Some x) (S n) s) ->
               exists b w1 rest,
                 x :: s = w1 ++ rest /\ fst m = n + length w1 /\
                 match_at f r b (Cur (last_char p w1) (fst m) rest)
                 = Some (snd m)).
    { intros resume' H.
      destruct (IH _ _ _ _ H) as (b & w1 & rest & -> & Hs & Hm).
      exists b, (x :: w1), rest. rewrite last_char_cons. simpl length.
      replace (n + S (length w1)) with (S n + length w1) by lia. auto. }
    simpl in Hin.
    destruct (n <? resume); [eauto|].
    destruct (match_at f r false (Cur p n (x :: s))) as [e|] eqn:H1;
      [|eauto].
    destruct (Nat.eqb_spec e n) as [->|_].
    + destruct Hin as [<-|Hin]; [eapply Hhead; eauto|].
      destruct (match_at f r true (Cur p n (x :: s))) as [e'|] eqn:H2;
        [|eauto].
      destruct Hin as [<-|Hin]; [eapply Hhead; eauto | eauto].
    + destruct Hin as [<-|Hin]; [eapply Hhead; eauto | eauto].
Qed.

(** ** Statements: order, and the closing brace *)

Lemma ci_eqb_rbrace x : ci_eqb "}" x = Ascii.eqb x "}".
Proof. ascii_cases x; reflexivity. Qed.

Lemma star_lazy_first_brace b n0 s :
  forall p n e,
    n0 <= n ->
    star_lazy I_S Dot
      (fun c' => exec I_S (Atom (Lit "}")) c' (accept b n0)) p n s = Some e ->
    exists body tail,
      s = body ++ "}"%char :: tail /\
      forallb (fun c => negb (Ascii.eqb c "}")) body = true /\
      e = n + length body + 1.
Proof.
  induction s as [|x s IH]; intros p n e Hn H; [discriminate H|].
  cbn [star_lazy exec rest pos atom_ok IGNORECASE DOTALL I_S orb] in H.
  rewrite ci_eqb_rbrace in H.
  destruct (Ascii.eqb_spec x "}") as [->|Hx].
  - unfold accept in H. cbn [pos] in H.
    destruct (Nat.eqb_spec (S n) n0); [lia|].
    rewrite andb_false_r in H. inversion H; subst e.
    exists [], s. simpl. split; [reflexivity|]. split; [reflexivity | lia].
  - apply IH in H; [|lia].
    destruct H as (body & tail & -> & Hb & ->).
    exists (x :: body), tail. simpl. split; [reflexivity|]. split; [|lia].
    rewrite Hb. destruct (Ascii.eqb_spec x "}"); [contradiction|].
    reflexivity.
Qed.

Lemma exec_cat_sound f A r1 r2 c (k : cursor -> option A) y :
  exec f (Cat r1 r2) c k = Some y ->
  exists c', matches f r1 c c' /\ exec f r2 c' k = Some y.
Proof. cbn [exec]. apply exec_sound. Qed.

Lemma statement_match b p n s e kw var :
  match_at I_S (re_statement kw var) b (Cur p n s) = Some e ->
  exists k ws v ws2 body tail,
    s = (k ++ ws ++ v ++ ws2 ++ "{"%char :: body ++ ["}"%char]) ++ tail /\
    e = n + length (k ++ ws ++ v ++ ws2 ++ "{"%char :: body ++ ["}"%char]) /\
    shape I_S kw k /\ shape I_S var v /\
    ws <> [] /\ forallb is_space ws = true /\
    forallb is_space ws2 = true /\
    forallb (fun c => negb (Ascii.eqb c "}")) body = true.
Proof.
  unfold match_at, re_statement. cbn [cats pos]. intros H.
  apply exec_cat_sound in H. destruct H as (c1 & M1 & H).
  apply exec_cat_sound in H. destruct H as (c2 & M2 & H).
  apply exec_cat_sound in H. destruct H as (c3 & M3 & H).
  apply exec_cat_sound in H. destruct H as (c4 & M4 & H).
  apply exec_cat_sound in H. destruct H as (c5 & M5 & H).
  destruct (matches_shape M1) as (k & R1 & C1 & S1).
  destruct (matches_shape M2) as (ws & R2 & C2 & S2).
  destruct (matches_shape M3) as (v & R3 & C3 & S3).
  destruct (matches_shape M4) as (ws2 & R4 & C4 & S4).
  destruct (matches_shape M5) as (w5 & R5 & C5 & (x & -> & Hx)).
  apply atom_ok_lit_brace in Hx. subst x.
  cbn [prev pos rest shape] in *.
  assert (Hpos : n <= pos c5).
  { rewrite C5, C4, C3, C2, C1. cbn [pos after]. lia. }
  cbn [exec] in H. apply star_lazy_first_brace in H; [|exact Hpos].
  destruct H as (body & tail & R6 & Hbody & ->).
  exists k, ws, v, ws2, body, tail.
  destruct S2 as (s1 & s2 & -> & (y & -> & Hy) & Hs2).
  repeat split; auto.
  - rewrite R1, R2, R3, R4, R5, R6. cbn [rest after] in *.
    rewrite <- !app_assoc. simpl. rewrite <- !app_assoc. reflexivity.
  - rewrite C5, C4, C3, C2, C1. cbn [pos after].
    repeat (rewrite length_app || cbn [length]). lia.
  - discriminate.
  - cbn [atom_ok] in Hy. simpl. rewrite Hy. exact Hs2.
Qed.

Lemma finditer_match r code f m :
  In m (finditer r code f) ->
  exists b w1 rest,
    code = w1 ++ rest /\ fst m = length w1 /\
    match_at f r b (Cur (last_char None w1) (fst m) rest) = Some (snd m).
Proof. intros H. apply scan_match in H. exact H. Qed.

(** X1. The statements that [find_statement] reports for a text come in
    the order in which they appear, none overlaps the one before it, and
    each is a span of the text that is not empty. *)
Theorem statements_in_order (code : str) (statement var : regex) :
  ordered 0 (find_statement code statement var) = true /\
  forall m, In m (find_statement code statement var) ->
            fst m < snd m <= length code.
Proof.
  split; [apply finditer_ordered|]. intros m Hin.
  apply finditer_matched in Hin.
  pose proof (matched_bounds Hin) as Hb.
  pose proof (slice_length m code Hb) as Hl.
  apply matched_shape, shape_statement in Hin.
  destruct Hin as (k & ws & v & ws2 & tail & Hs & _ & _ & Hws & _).
  rewrite Hs in Hl. rewrite !length_app in Hl.
  destruct ws; [contradiction|]. simpl in Hl. lia.
Qed.

(** X2. A statement reported by [find_statement] reads: keyword, white
    space, name, optional white space, an opening brace, a body and a
    closing brace, where the body holds no closing brace: the statement
    ends at the first closing brace after the brace that opens it. *)
Theorem statement_ends_at_first_closing_brace
        (code : str) (statement var : regex) (m : span) :
  In m (find_statement code statement var) ->
  exists k ws v ws2 body,
    slice m code = k ++ ws ++ v ++ ws2 ++ "{"%char :: body ++ ["}"%char] /\
    shape I_S statement k /\ shape I_S var v /\
    ws <> [] /\ forallb is_space ws = true /\
    forallb is_space ws2 = true /\
    forallb (fun c => negb (Ascii.eqb c "}")) body = true.
Proof.
  intros Hin. apply finditer_match in Hin.
  destruct Hin as (b & w1 & rest & -> & Hs & Hm).
  apply statement_match in Hm.
  destruct Hm as (k & ws & v & ws2 & body & tail & -> & He & Hrest).
  exists k, ws, v, ws2, body. split; [|exact Hrest].
  destruct m as [s e]. cbn [fst snd] in *. subst s. rewrite He.
  apply slice_middle.
Qed.

Lemma statement_ends_at_first_closing_brace_witness :
  In (0, 21) (find_statement (txt "define X { case { a } b }")
                             re_define (lit (txt "X"))) /\
  exists k ws v ws2 body,
    slice (0, 21) (txt "define X { case { a } b }")
    = k ++ ws ++ v ++ ws2 ++ "{"%char :: body ++ ["}"%char] /\
    shape I_S re_define k /\ shape I_S (lit (txt "X")) v /\
    ws <> [] /\ forallb is_space ws = true /\
    forallb is_space ws2 = true /\
    forallb (fun c => negb (Ascii.eqb c "}")) body = true.
Proof.
  assert (H : In (0, 21) (find_statement (txt "define X { case { a } b }")
                                         re_define (lit (txt "X"))))
    by (vm_compute; left; reflexivity).
  split; [exact H|].
  exact (@statement_ends_at_first_closing_brace _ _ _ _ H).
Defined.

(** ** Building matches *)

Lemma consumes_eps f : consumes f Eps [].
Proof. intros p n s. simpl. rewrite Nat.add_0_r. constructor. Qed.

Lemma consumes_atom f a x : atom_ok f a x = true -> consumes f (Atom a) [x].
Proof.
  intros H p n s. simpl. replace (n + 1) with (S n) by lia.
  constructor. exact H.
Qed.

Lemma consumes_cat f r1 r2 w1 w2 :
  consumes f r1 w1 -> consumes f r2 w2 -> consumes f (Cat r1 r2) (w1 ++ w2).
Proof.
  intros H1 H2 p n s. rewrite <- app_assoc, last_char_app, length_app.
  rewrite Nat.add_assoc. econstructor; [apply H1 | apply H2].
Qed.

Lemma repeats_all f a w :
  forallb (atom_ok f a) w = true ->
  forall p n s,
    repeats f a (Cur p n (w ++ s)) (Cur (last_char p w) (n + length w) s).
Proof.
  induction w as [|x w IH]; intros H p n s.
  - simpl. rewrite Nat.add_0_r. constructor.
  - simpl in H. apply andb_prop in H. destruct H as [Hx H].
    rewrite last_char_cons. simpl. rewrite Nat.add_succ_r.
    constructor; [exact Hx|]. apply (IH H (Some x) (S n) s).
Qed.


Lemma consumes_star_lazy f a w :
  forallb (atom_ok f a) w = true -> consumes f (StarLazy a) w.
Proof. intros H p n s. constructor. apply repeats_all. exact H. Qed.


Lemma consumes_lit_exact f v : consumes f (lit v) v.
Proof.
  induction v as [|x v IH]; [apply consumes_eps|].
  change (x :: v) with ([x] ++ v). apply consumes_cat; [|exact IH].
  apply consumes_atom. simpl.
  destruct (IGNORECASE f); [unfold ci_eqb|]; apply Ascii.eqb_refl.
Qed.

Lemma forallb_true {T} (l : list T) : forallb (fun _ => true) l = true.
Proof. induction l; simpl; auto. Qed.

Lemma consumes_any_lazy f w :
  DOTALL f = true -> consumes f (StarLazy Dot) w.
Proof.
  intros Hf. apply consumes_star_lazy.
  replace (atom_ok f Dot) with (fun _ : ascii => true); [apply forallb_true|].
  unfold atom_ok. rewrite Hf. reflexivity.
Qed.

Lemma consumes_matched f r (pre w post : str) :
  consumes f r w ->
  matched f r (pre ++ w ++ post) (length pre, length pre + length w).
Proof. intros H. exists pre, w, post. repeat split. apply H. Qed.




(** ** What the sanitizer leaves behind *)

Lemma Forall2_of_nth {T U} (R : T -> U -> Prop) (a : list T) :
  forall b : list U,
    length a = length b ->
    (forall i x y, nth_error a i = Some x -> nth_error b i = Some y -> R x y) ->
    Forall2 R a b.
Proof.
  induction a as [|x a IH]; intros [|y b] Hl H; try discriminate Hl.
  - constructor.
  - constructor; [apply (H 0); reflexivity|].
    apply IH; [simpl in Hl; lia|].
    intros i x' y' Hx Hy. apply (H (S i)); assumption.
Qed.

Lemma blanked_Forall2 code ms out :
  blanked code ms out -> length out = length code ->
  Forall2 kept_or_blank code out.
Proof.
  intros Hb Hl. apply Forall2_of_nth; [congruence|].
  intros i x y Hx Hy. rewrite Hb, Hx in Hy.
  destruct (existsb (covers i) ms); inversion Hy; [right | left];
    reflexivity.
Qed.

Lemma kept_exact cw w :
  Forall2 kept_or_blank cw w ->
  forallb (fun c => negb (Ascii.eqb c space)) w = true -> cw = w.
Proof.
  induction 1 as [|c o cw w [E|E] _ IH]; intros H; [reflexivity| |];
    simpl in H; apply andb_prop in H; destruct H as [Ho H].
  - subst o. f_equal. auto.
  - subst o. discriminate Ho.
Qed.

Lemma kept_cons_inv cw o w :
  Forall2 kept_or_blank cw (o :: w) -> o <> space ->
  exists cw', cw = o :: cw' /\ Forall2 kept_or_blank cw' w.
Proof.
  intros H Ho. inversion H as [|c o' cw' w' [E|E] H']; subst.
  - eauto.
  - contradiction.
Qed.

(** A span reported for the sanitized text starts at a character that
    was not blanked. *)
Lemma covered_is_blank code ms out m i :
  blanked code ms out -> In m ms -> fst m <= i < snd m ->
  nth_error out i = Some space \/ nth_error out i = None.
Proof.
  intros Hb Hin Hi. rewrite Hb.
  assert (E : existsb (covers i) ms = true).
  { apply existsb_exists. exists m. split; [exact Hin|]. unfold covers.
    destruct (Nat.leb_spec (fst m) i); [|lia].
    destruct (Nat.ltb_spec i (snd m)); [reflexivity | lia]. }
  rewrite E. left. reflexivity.
Qed.

Lemma split_at_first (x : ascii) l :
  In x l -> exists l1 l2, l = l1 ++ x :: l2 /\ ~ In x l1.
Proof.
  induction l as [|y l IH]; intros H; [destruct H|].
  destruct (ascii_dec y x) as [->|Hne].
  - exists [], l. split; [reflexivity | intros []].
  - destruct H as [E|H]; [contradiction|].
    destruct (IH H) as (l1 & l2 & -> & Hn).
    exists (y :: l1), l2. split; [reflexivity|].
    intros [E|E]; [contradiction | auto].
Qed.

Lemma shape_lit_exact f v : forall w,
  IGNORECASE f = false -> shape f (lit v) w -> w = v.
Proof.
  induction v as [|x v IH]; intros w Hf H; simpl in H; [exact H|].
  destruct H as (w1 & w2 & -> & (y & -> & Hy) & H2).
  cbn [atom_ok] in Hy. rewrite Hf in Hy. apply Ascii.eqb_eq in Hy.
  subst y. simpl. f_equal. auto.
Qed.

Lemma atom_ok_lit_exact f x y :
  IGNORECASE f = false -> atom_ok f (Lit x) y = true -> y = x.
Proof.
  intros Hf H. cbn [atom_ok] in H. rewrite Hf in H.
  apply Ascii.eqb_eq in H. auto.
Qed.

Lemma kept_split code out w1 w w2 :
  Forall2 kept_or_blank code out -> out = w1 ++ w ++ w2 ->
  exists c1 cw c2,
    code = c1 ++ cw ++ c2 /\ length c1 = length w1 /\
    Forall2 kept_or_blank cw w /\ Forall2 kept_or_blank c2 w2.
Proof.
  intros H ->. apply Forall2_app_inv_r in H.
  destruct H as (c1 & r0 & H1 & H & ->).
  apply Forall2_app_inv_r in H. destruct H as (cw & c2 & Hw & H2 & ->).
  exists c1, cw, c2. repeat split; auto. eapply Forall2_length, H1.
Qed.

(** If every match of [r] in the sanitized text starts at a character
    that is not a blank and shows a match at the same offset in the text
    itself, the sanitized text has no match of [r]. *)
Lemma nothing_left code ms out f r :
  blanked code ms out ->
  (forall m, In m (finditer r code f) -> In m ms) ->
  (forall m, matched f r out m ->
             (exists c, nth_error out (fst m) = Some c /\ c <> space) /\
             exists e, fst m < e /\ matched f r code (fst m, e)) ->
  finditer r out f = [].
Proof.
  intros Hb Hms Ht.
  destruct (finditer r out f) as [|m l] eqn:E; [reflexivity|]. exfalso.
  assert (Hin : In m (finditer r out f)) by (rewrite E; left; reflexivity).
  apply finditer_matched in Hin.
  destruct (Ht _ Hin) as ((c & Hc & Hsp) & e & He & Hm).
  destruct (finditer_complete Hm He) as (m' & Hin' & Hcov).
  cbn [fst snd] in Hcov.
  destruct (covered_is_blank _ Hb (Hms _ Hin') Hcov) as [H|H];
    rewrite Hc in H; [inversion H; contradiction | discriminate H].
Qed.

Lemma nth_error_middle {T} (w1 : list T) x tl :
  nth_error (w1 ++ x :: tl) (length w1) = Some x.
Proof. rewrite nth_error_app2, Nat.sub_diag by lia. reflexivity. Qed.

Lemma block_comment_transfer code out m :
  Forall2 kept_or_blank code out -> matched S_ re_cb out m ->
  (exists c, nth_error out (fst m) = Some c /\ c <> space) /\
  exists e, fst m < e /\ matched S_ re_cb code (fst m, e).
Proof.
  intros Hk Hm. pose proof (matched_shape Hm) as Hs.
  destruct (matched_slice Hm) as (w1 & w2 & Ho & Hf & _).
  unfold re_cb in Hs. cbn [cats shape] in Hs.
  destruct Hs as (a0 & t0 & E0 & (x0 & -> & H0) & a1 & t1 & -> &
                  (x1 & -> & H1) & mid & t2 & -> & _ & a2 & a3 & -> &
                  (x2 & -> & H2) & (x3 & -> & H3)).
  apply atom_ok_lit_exact in H0, H1, H2, H3; try reflexivity. subst.
  rewrite E0 in Ho. split.
  - exists "/"%char. split; [|discriminate].
    rewrite Ho, Hf. apply nth_error_middle.
  - destruct (@kept_split _ _ _ _ _ Hk Ho) as (c1 & cw & c2 & -> & Hl & Hw & _).
    cbn [app] in Hw.
    apply kept_cons_inv in Hw; [|discriminate].
    destruct Hw as (cw1 & -> & Hw).
    apply kept_cons_inv in Hw; [|discriminate].
    destruct Hw as (cw2 & -> & Hw).
    apply Forall2_app_inv_r in Hw. destruct Hw as (cmid & cend & _ & He & ->).
    apply kept_exact in He; [|reflexivity]. subst cend.
    rewrite Hf, <- Hl.
    exists (length c1
            + length (["/"%char] ++ ["*"%char] ++ cmid ++ ["*"%char]
                      ++ ["/"%char])).
    split; [simpl; lia|].
    apply (@consumes_matched S_ re_cb c1
             (["/"%char] ++ ["*"%char] ++ cmid ++ ["*"%char] ++ ["/"%char])
             c2).
    unfold re_cb. cbn [cats].
    repeat (apply consumes_cat;
            [first [apply consumes_atom; reflexivity
                   | apply consumes_any_lazy; reflexivity]|]).
    apply consumes_atom. reflexivity.
Qed.

Lemma no_newline_dots r1 :
  ~ In newline r1 -> forallb (atom_ok no_flags Dot) r1 = true.
Proof.
  induction r1 as [|x r1 IH]; intros H; [reflexivity|]. simpl.
  rewrite IH by (intros Hin; apply H; right; exact Hin).
  destruct (Ascii.eqb_spec x newline) as [->|_]; [|reflexivity].
  exfalso. apply H. left. reflexivity.
Qed.

Lemma line_comment_matched (c1 r1 rest : str) :
  ~ In newline r1 ->
  matched no_flags re_ic (c1 ++ ("!"%char :: r1) ++ newline :: rest)
          (length c1, length c1 + length ("!"%char :: r1)).
Proof.
  intros Hn. exists c1, ("!"%char :: r1), (newline :: rest).
  repeat split. unfold re_ic. cbn [cats app].
  rewrite last_char_cons. simpl length. rewrite Nat.add_succ_r.
  econstructor; [apply m_atom; reflexivity|].
  econstructor.
  - apply m_star.
    apply (@repeats_all no_flags Dot r1 (@no_newline_dots r1 Hn)
             (Some "!"%char) (S (length c1)) (newline :: rest)).
  - apply m_ahead. reflexivity.
Qed.

Lemma line_comment_transfer code out m :
  Forall2 kept_or_blank code out -> matched no_flags re_ic out m ->
  (exists c, nth_error out (fst m) = Some c /\ c <> space) /\
  exists e, fst m < e /\ matched no_flags re_ic code (fst m, e).
Proof.
  intros Hk Hm. pose proof (matched_shape Hm) as Hs.
  destruct (matched_slice Hm) as (w1 & w2 & Ho & Hf & _ & Hmt).
  unfold re_ic in Hs, Hmt. cbn [cats shape] in Hs, Hmt.
  destruct Hs as (a0 & run & E0 & (x0 & -> & H0) & _).
  apply atom_ok_lit_exact in H0; [|reflexivity]. subst x0.
  rewrite E0 in Ho, Hmt.
  (* the look-ahead: a line break follows the match *)
  assert (Hnl : exists s, w2 = newline :: s).
  { inversion Hmt as [| |r1 r2 ca cb cc _ Hrest| | | | | |]; subst.
    inversion Hrest as [| |r1 r2 ca' cb' cc' _ Hah| | | | | |]; subst.
    inversion Hah as [| | | | | | | |a p n x s Hx]; subst.
    apply atom_ok_lit_exact in Hx; [|reflexivity]. subst x. eauto. }
  destruct Hnl as (s & ->). split.
  - exists "!"%char. split; [|discriminate].
    rewrite Ho, Hf. apply nth_error_middle.
  - replace (w1 ++ (["!"%char] ++ run) ++ newline :: s)
      with (w1 ++ ["!"%char] ++ (run ++ newline :: s)) in Ho
      by (rewrite <- !app_assoc; reflexivity).
    destruct (@kept_split _ _ _ _ _ Hk Ho) as (c1 & cw & c2 & -> & Hl & Hw & H2).
    apply kept_exact in Hw; [|reflexivity]. subst cw.
    apply Forall2_app_inv_r in H2. destruct H2 as (crun & cnl & _ & Hn & ->).
    apply kept_cons_inv in Hn; [|discriminate].
    destruct Hn as (cs & -> & _).
    assert (Hin : In newline (crun ++ newline :: cs))
      by (apply in_or_app; right; left; reflexivity).
    destruct (@split_at_first newline _ Hin) as (r1 & rest & -> & Hfirst).
    rewrite Hf, <- Hl.
    exists (length c1 + length ("!"%char :: r1)).
    split; [simpl; lia|].
    apply (@line_comment_matched c1 r1 rest Hfirst).
Qed.

Lemma remove_comments_kept code :
  Forall2 kept_or_blank code (remove_comments code).
Proof.
  apply (@blanked_Forall2 code (comment_spans code) (remove_comments code)
           (remove_comments_blanked code) (remove_comments_length code)).
Qed.

Lemma no_comment_left code : comment_spans (remove_comments code) = [].
Proof.
  unfold comment_spans at 1.
  rewrite (@nothing_left code (comment_spans code)
             (remove_comments code) S_ re_cb
             (remove_comments_blanked code)).
  - rewrite (@nothing_left code (comment_spans code)
               (remove_comments code) no_flags re_ic
               (remove_comments_blanked code)); [reflexivity| |].
    + intros m Hm. apply in_or_app. right. exact Hm.
    + intros m. apply line_comment_transfer, remove_comments_kept.
  - intros m Hm. apply in_or_app. left. exact Hm.
  - intros m. apply block_comment_transfer, remove_comments_kept.
Qed.

(** X4. After [remove_comments] the text holds no block comment and no
    line comment that a line break follows; applying [remove_comments] a
    second time changes nothing. *)
Theorem remove_comments_is_idempotent (code : str) :
  comment_spans (remove_comments code) = [] /\
  remove_comments (remove_comments code) = remove_comments code.
Proof.
  split; [apply no_comment_left|].
  unfold remove_comments at 1. rewrite no_comment_left. reflexivity.
Qed.

Lemma case_block_transfer code out m :
  Forall2 kept_or_blank code out -> matched S_ re_case_block out m ->
  (exists c, nth_error out (fst m) = Some c /\ c <> space) /\
  exists e, fst m < e /\ matched S_ re_case_block code (fst m, e).
Proof.
  intros Hk Hm. pose proof (matched_shape Hm) as Hs.
  destruct (matched_slice Hm) as (w1 & w2 & Ho & Hf & _).
  unfold re_case_block in Hs. cbn [cats shape] in Hs.
  destruct Hs as (cs & t0 & E0 & Hcs & mid1 & t1 & -> & _ & a1 & t2 & -> &
                  (x1 & -> & H1) & mid2 & a2 & -> & _ & (x2 & -> & H2)).
  apply shape_lit_exact in Hcs; [|reflexivity]. subst cs.
  apply atom_ok_lit_exact in H1, H2; try reflexivity. subst.
  rewrite E0 in Ho. split.
  - exists "c"%char. split; [|discriminate].
    rewrite Ho, Hf. apply nth_error_middle.
  - destruct (@kept_split _ _ _ _ _ Hk Ho) as (c1 & cw & c2 & -> & Hl & Hw & _).
    apply Forall2_app_inv_r in Hw. destruct Hw as (ccs & r0 & Hcs & Hw & ->).
    apply kept_exact in Hcs; [|reflexivity]. subst ccs.
    apply Forall2_app_inv_r in Hw. destruct Hw as (cmid1 & r1 & _ & Hw & ->).
    cbn [app] in Hw.
    apply kept_cons_inv in Hw; [|discriminate].
    destruct Hw as (r2 & -> & Hw).
    apply Forall2_app_inv_r in Hw. destruct Hw as (cmid2 & cend & _ & He & ->).
    apply kept_exact in He; [|reflexivity]. subst cend.
    rewrite Hf, <- Hl.
    exists (length c1
            + length (txt "case" ++ cmid1 ++ ["{"%char] ++ cmid2
                      ++ ["}"%char])).
    split; [rewrite !length_app; simpl; lia|].
    apply (@consumes_matched S_ re_case_block c1
             (txt "case" ++ cmid1 ++ ["{"%char] ++ cmid2 ++ ["}"%char]) c2).
    unfold re_case_block. cbn [cats].
    apply consumes_cat; [apply consumes_lit_exact|].
    apply consumes_cat; [apply consumes_any_lazy; reflexivity|].
    apply consumes_cat; [apply consumes_atom; reflexivity|].
    apply consumes_cat; [apply consumes_any_lazy; reflexivity|].
    apply consumes_atom. reflexivity.
Qed.

Lemma remove_cases_kept code :
  Forall2 kept_or_blank code (remove_cases code).
Proof.
  apply (@blanked_Forall2 code (case_spans code) (remove_cases code)
           (remove_cases_blanked code) (remove_cases_length code)).
Qed.

Lemma no_case_left code : case_spans (remove_cases code) = [].
Proof.
  unfold case_spans at 1.
  apply (@nothing_left code (case_spans code) (remove_cases code)
           S_ re_case_block (remove_cases_blanked code)).
  - intros m Hm. exact Hm.
  - intros m. apply case_block_transfer, remove_cases_kept.
Qed.

(** X5. After [remove_cases] the text holds no case block (the word
    [case], in lower case, with a pair of braces after it); applying
    [remove_cases] a second time changes nothing. *)
Theorem remove_cases_is_idempotent (code : str) :
  case_spans (remove_cases code) = [] /\
  remove_cases (remove_cases code) = remove_cases code.
Proof.
  split; [apply no_case_left|].
  unfold remove_cases at 1. rewrite no_case_left. reflexivity.
Qed.

(** Blanking more of a text brings no match of [r] into being, when
    every match in the blanked text shows one at the same place in the
    text. *)
Lemma nothing_new code out f r :
  (forall m, matched f r out m ->
             exists e, fst m < e /\ matched f r code (fst m, e)) ->
  finditer r code f = [] -> finditer r out f = [].
Proof.
  intros Ht Hnone.
  destruct (finditer r out f) as [|m l] eqn:E; [reflexivity|]. exfalso.
  assert (Hin : In m (finditer r out f)) by (rewrite E; left; reflexivity).
  apply finditer_matched in Hin.
  destruct (Ht _ Hin) as (e & He & Hm).
  destruct (finditer_complete Hm He) as (m' & Hin' & _).
  rewrite Hnone in Hin'. destruct Hin'.
Qed.

(** X17. The text that the three passes search, [remove_cases
    (remove_comments v)], holds no comment and no case block: blanking
    the case blocks brings no comment back. *)
Theorem searched_text_is_clean (v : str) :
  comment_spans (remove_cases (remove_comments v)) = [] /\
  case_spans (remove_cases (remove_comments v)) = [].
Proof.
  split; [|apply no_case_left].
  pose proof (no_comment_left v) as H. unfold comment_spans in H.
  apply app_eq_nil in H. destruct H as [Hcb Hic].
  unfold comment_spans.
  rewrite (@nothing_new (remove_comments v) _ S_ re_cb); [|  | exact Hcb].
  - rewrite (@nothing_new (remove_comments v) _ no_flags re_ic);
      [reflexivity | | exact Hic].
    intros m Hm.
    apply (line_comment_transfer (remove_cases_kept (remove_comments v)) Hm).
  - intros m Hm.
    apply (block_comment_transfer (remove_cases_kept (remove_comments v)) Hm).
Qed.

(** ** Words and removed spans *)

(** The two ends of a match, seen from the text. *)
Lemma matched_ends f r code m :
  matched f r code m ->
  exists c0 c1 w2,
    matches f r c0 c1 /\
    rest c0 = slice m code ++ w2 /\ rest c1 = w2 /\
    prev c1 = last_char (prev c0) (slice m code) /\
    is_word_opt (prev c0) = word_before code (fst m) /\
    is_word_opt (hd_error (rest c0)) = word_after code (fst m) /\
    is_word_opt (prev c1) = word_before code (snd m) /\
    is_word_opt (hd_error (rest c1)) = word_after code (snd m).
Proof.
  intros H. destruct (matched_slice H) as (w1 & w2 & Hc & Hs & He & Hm).
  set (w := slice m code) in *.
  exists (Cur (last_char None w1) (fst m) (w ++ w2)),
         (Cur (last_char (last_char None w1) w) (snd m) w2), w2.
  cbn [prev rest]. repeat split; auto.
  - rewrite Hc, Hs. symmetry. apply word_before_split.
  - rewrite Hc, Hs. symmetry. apply word_after_split.
  - rewrite Hc, He, app_assoc, <- length_app, <- last_char_app.
    symmetry. apply word_before_split.
  - rewrite Hc, He, app_assoc, <- length_app.
    symmetry. apply word_after_split.
Qed.

Lemma last_char_snoc d w x : last_char d (w ++ [x]) = Some x.
Proof. rewrite last_char_app. reflexivity. Qed.

Lemma bound_first f r c0 c1 :
  matches f (Cat Bound r) c0 c1 -> at_boundary c0 = true.
Proof.
  intros H. inversion H as [| |r1 r2 ca cb cc Hb _| | | | | |]; subst.
  inversion Hb; subst. assumption.
Qed.

Lemma bound_last f r c0 c1 :
  matches f (Cat r Bound) c0 c1 -> at_boundary c1 = true.
Proof.
  intros H. inversion H as [| |r1 r2 ca cb cc _ Hb| | | | | |]; subst.
  inversion Hb; subst. assumption.
Qed.

Lemma cat_tail f r1 r2 c0 c1 :
  matches f (Cat r1 r2) c0 c1 -> exists c, matches f r2 c c1.
Proof.
  intros H. inversion H as [| |ra rb ca cb cc _ H2| | | | | |]; subst.
  eauto.
Qed.

Lemma xorb_not_both a b : xorb a b = true -> a && b = false.
Proof. destruct a, b; simpl; congruence. Qed.

Lemma num_span_ends code m :
  matched no_flags re_num code m ->
  word_before code (fst m) && word_after code (fst m) = false /\
  word_before code (snd m) && word_after code (snd m) = false.
Proof.
  intros H.
  destruct (matched_ends H)
    as (c0 & c1 & w2 & Hm & _ & _ & _ & B0 & A0 & B1 & A1).
  unfold re_num in Hm. cbn [cats] in Hm.
  pose proof (bound_first Hm) as H0.
  destruct (cat_tail Hm) as (ca & Ha). destruct (cat_tail Ha) as (cb & Hb).
  destruct (cat_tail Hb) as (cc & Hc). pose proof (bound_last Hc) as H1.
  unfold at_boundary in H0, H1. rewrite B0, A0 in H0. rewrite B1, A1 in H1.
  split; apply xorb_not_both; assumption.
Qed.

Lemma key_span_ends f key code m :
  matched f (re_key key) code m ->
  word_before code (fst m) && word_after code (fst m) = false /\
  word_before code (snd m) && word_after code (snd m) = false.
Proof.
  intros H.
  destruct (matched_ends H)
    as (c0 & c1 & w2 & Hm & _ & _ & _ & B0 & A0 & B1 & A1).
  unfold re_key in Hm. cbn [cats] in Hm.
  pose proof (bound_first Hm) as H0.
  destruct (cat_tail Hm) as (ca & Ha). pose proof (bound_last Ha) as H1.
  unfold at_boundary in H0, H1. rewrite B0, A0 in H0. rewrite B1, A1 in H1.
  split; apply xorb_not_both; assumption.
Qed.

Lemma case_span_ends code m :
  matched I re_case code m ->
  word_before code (fst m) && word_after code (fst m) = false /\
  word_before code (snd m) && word_after code (snd m) = false.
Proof.
  intros H. pose proof (matched_shape H) as Hs.
  destruct (matched_ends H)
    as (c0 & c1 & w2 & Hm & _ & _ & P1 & B0 & A0 & B1 & A1).
  unfold re_case in Hm, Hs. cbn [cats shape] in Hm, Hs.
  pose proof (bound_first Hm) as H0.
  unfold at_boundary in H0. rewrite B0, A0 in H0.
  split; [apply xorb_not_both; assumption|].
  destruct Hs as (e0 & t0 & E & -> & cs & t1 & -> & _ & mid & t2 & -> & _ &
                  (x & -> & Hx)).
  apply atom_ok_lit_brace in Hx. subst x.
  rewrite <- B1, P1, E. cbn [app].
  rewrite !app_assoc, last_char_snoc. reflexivity.
Qed.

Lemma cycle_span_ends code m :
  matched no_flags re_cycle code m ->
  word_before code (fst m) && word_after code (fst m) = false /\
  word_before code (snd m) && word_after code (snd m) = false.
Proof.
  intros H. pose proof (matched_shape H) as Hs.
  destruct (matched_ends H)
    as (c0 & c1 & w2 & Hm & R0 & _ & P1 & B0 & A0 & B1 & A1).
  unfold re_cycle in Hs. cbn [cats shape PlusLazy] in Hs.
  destruct Hs as (a0 & t0 & E & (x0 & -> & H0) & mid & a1 & -> & _ &
                  (x1 & -> & H1)).
  apply atom_ok_lit_exact in H0, H1; try reflexivity. subst.
  split.
  - rewrite <- A0, R0, E. cbn [app hd_error is_word_opt].
    apply andb_false_r.
  - rewrite <- B1, P1, E. rewrite !app_assoc, last_char_snoc. reflexivity.
Qed.

Lemma non_variable_span_ends code m :
  In m (non_variable_spans code) ->
  word_before code (fst m) && word_after code (fst m) = false /\
  word_before code (snd m) && word_after code (snd m) = false.
Proof.
  unfold non_variable_spans. rewrite !in_app_iff, in_flat_map.
  intros [H|[H|(key & _ & H)]].
  - apply num_span_ends, finditer_matched, H.
  - apply cycle_span_ends, finditer_matched, H.
  - destruct (str_eqb key (txt "case")).
    + apply case_span_ends, finditer_matched, H.
    + eapply key_span_ends, finditer_matched, H.
Qed.

(** X6. [remove_non_variables] never cuts a word in two: no span that it
    blanks starts or ends between two word characters. *)
Theorem non_variable_spans_respect_words (code : str) (m : span) :
  In m (non_variable_spans code) ->
  word_before code (fst m) && word_after code (fst m) = false /\
  word_before code (snd m) && word_after code (snd m) = false.
Proof. apply non_variable_span_ends. Qed.

Lemma non_variable_spans_respect_words_witness :
  In (6, 8) (non_variable_spans (txt "upper 12.5*Y")) /\
  word_before (txt "upper 12.5*Y") 6
  && word_after (txt "upper 12.5*Y") 6 = false /\
  word_before (txt "upper 12.5*Y") 8
  && word_after (txt "upper 12.5*Y") 8 = false.
Proof.
  assert (H : In (6, 8) (non_variable_spans (txt "upper 12.5*Y")))
    by (vm_compute; left; reflexivity).
  split; [exact H|].
  exact (@non_variable_spans_respect_words _ _ H).
Defined.

Lemma covered_by code ms out i c :
  blanked code ms out -> nth_error code i = Some c ->
  nth_error out i <> Some c ->
  exists m, In m ms /\ fst m <= i < snd m.
Proof.
  intros Hb Hc Hne. rewrite Hb in Hne.
  destruct (existsb (covers i) ms) eqn:E; [|contradiction].
  apply existsb_exists in E. destruct E as (m & Hin & Hcov).
  exists m. split; [exact Hin|]. unfold covers in Hcov.
  apply andb_prop in Hcov. destruct Hcov as [H1 H2].
  apply Nat.leb_le in H1. apply Nat.ltb_lt in H2. lia.
Qed.

Lemma not_covered code ms out i c m :
  blanked code ms out -> nth_error out i = Some c -> c <> space ->
  In m ms -> ~ (fst m <= i < snd m).
Proof.
  intros Hb Hc Hsp Hin Hcov.
  destruct (covered_is_blank _ Hb Hin Hcov) as [H|H]; rewrite Hc in H;
    [inversion H; contradiction | discriminate H].
Qed.

Lemma remove_non_variables_blanked code :
  blanked code (non_variable_spans code) (remove_non_variables code).
Proof. apply sanitize_blanked, non_variable_spans_bounds. Qed.

Lemma remove_non_variables_length code :
  length (remove_non_variables code) = length code.
Proof. apply sanitize_length, non_variable_spans_bounds. Qed.

Lemma is_word_not_space c : is_word c = true -> c <> space.
Proof. intros H ->. discriminate H. Qed.

Lemma words_match out m :
  matched no_flags re_words out m ->
  is_name (slice m out) = true /\
  word_before out (fst m) = false /\
  word_after out (snd m) = false.
Proof.
  intros H. pose proof (matched_shape H) as Hs.
  destruct (matched_ends H)
    as (c0 & c1 & w2 & Hm & R0 & _ & P1 & B0 & A0 & B1 & A1).
  unfold re_words in Hm, Hs. cbn [cats shape Plus] in Hm, Hs.
  destruct Hs as (e0 & t0 & E & -> & pw & e1 & -> & (a & b & -> &
                  (x & -> & Hx) & Hb) & ->).
  cbn [app atom_ok] in *. rewrite app_nil_r in E.
  change (forallb is_word b = true) in Hb.
  assert (Hw : forallb is_word (slice m out) = true)
    by (rewrite E; simpl; rewrite Hx, Hb; reflexivity).
  pose proof (bound_first Hm) as H0.
  destruct (cat_tail Hm) as (ca & Ha). pose proof (bound_last Ha) as H1.
  unfold at_boundary in H0, H1.
  rewrite B0, A0 in H0. rewrite B1, A1 in H1.
  repeat split.
  - rewrite E in Hw |- *. exact Hw.
  - rewrite <- A0, R0, E in H0. cbn [app hd_error is_word_opt] in H0.
    rewrite Hx in H0. destruct (word_before out (fst m));
      [discriminate H0 | reflexivity].
  - rewrite <- B1, P1 in H1.
    rewrite last_char_word in H1; [| rewrite E; discriminate | exact Hw].
    destruct (word_after out (snd m)); [discriminate H1 | reflexivity].
Qed.

(** X7. Every candidate input that Pass 2 reads off a sanitized
    definition body is a whole word of the body itself, at the same
    place: the same characters, all of them word characters, with no word
    character before or after them.  The sanitizer produces no fragment
    of a longer name. *)
Theorem candidates_are_whole_words (body : str) (m : span) :
  In m (finditer re_words (remove_non_variables body) no_flags) ->
  group (remove_non_variables body) m = slice m body /\
  is_name (slice m body) = true /\
  word_before body (fst m) = false /\
  word_after body (snd m) = false.
Proof.
  intros Hin. set (out := remove_non_variables body) in *.
  pose proof (remove_non_variables_blanked body) as Hb. fold out in Hb.
  pose proof (remove_non_variables_length body) as Hl. fold out in Hl.
  apply finditer_matched in Hin.
  pose proof (matched_bounds Hin) as Hbd.
  destruct (words_match Hin) as (Hname & Hbefore & Hafter).
  pose proof (slice_length m out Hbd) as Hsl.
  assert (Hne : fst m < snd m).
  { destruct (slice m out); [discriminate Hname|]. simpl in Hsl. lia. }
  assert (Hword : forall i, fst m <= i < snd m ->
                    exists c, nth_error out i = Some c /\
                              is_word c = true /\
                              nth_error body i = Some c).
  { intros i Hi.
    destruct (nth_error (slice m out) (i - fst m)) as [c|] eqn:E.
    - assert (Hc : is_word c = true).
      { apply is_name_word in Hname. destruct Hname as [_ Hw].
        rewrite forallb_forall in Hw. apply Hw. eapply nth_error_In, E. }
      rewrite nth_error_slice in E by lia.
      replace (fst m + (i - fst m)) with i in E by lia.
      exists c. repeat split; auto.
      apply (@blanked_kept _ _ _ _ _ Hb E (@is_word_not_space _ Hc)).
    - apply nth_error_None in E. lia. }
  assert (Hslices : slice m out = slice m body).
  { apply nth_error_ext. intros j. rewrite !nth_error_slice_full.
    destruct (Nat.ltb_spec j (snd m - fst m)); [|reflexivity].
    destruct (Hword (fst m + j)) as (c & Ho & _ & Hbo); [lia|].
    congruence. }
  split; [exact Hslices|]. split; [rewrite <- Hslices; exact Hname|].
  split.
  - destruct (fst m) as [|j] eqn:Ef; [reflexivity|].
    cbn [word_before] in *.
    destruct (nth_error body j) as [c|] eqn:Ec; [|reflexivity].
    cbn [is_word_opt]. destruct (is_word c) eqn:Hc; [|reflexivity].
    exfalso.
    assert (Hdiff : nth_error out j <> Some c).
    { intros E. rewrite E in Hbefore. cbn [is_word_opt] in Hbefore.
      congruence. }
    destruct (@covered_by _ _ _ _ _ Hb Ec Hdiff) as (m' & Hin' & Hcov).
    destruct (Hword (S j)) as (c' & Ho & Hc' & Hbo); [lia|].
    pose proof (@not_covered _ _ _ _ _ _ Hb Ho (@is_word_not_space _ Hc') Hin') as Hnc.
    assert (Hend : snd m' = S j) by lia.
    destruct (@non_variable_span_ends _ _ Hin') as [_ Hcut].
    rewrite Hend in Hcut. unfold word_after in Hcut.
    cbn [word_before] in Hcut. rewrite Ec, Hbo in Hcut.
    cbn [is_word_opt] in Hcut. rewrite Hc, Hc' in Hcut. discriminate Hcut.
  - unfold word_after in *.
    destruct (nth_error body (snd m)) as [c|] eqn:Ec; [|reflexivity].
    cbn [is_word_opt]. destruct (is_word c) eqn:Hc; [|reflexivity].
    exfalso.
    assert (Hdiff : nth_error out (snd m) <> Some c).
    { intros E. rewrite E in Hafter. cbn [is_word_opt] in Hafter.
      congruence. }
    destruct (@covered_by _ _ _ _ _ Hb Ec Hdiff) as (m' & Hin' & Hcov).
    destruct (snd m) as [|e] eqn:Ee; [lia|].
    destruct (Hword e) as (c' & Ho & Hc' & Hbo); [lia|].
    pose proof (@not_covered _ _ _ _ _ _ Hb Ho (@is_word_not_space _ Hc') Hin') as Hnc.
    assert (Hstart : fst m' = S e) by lia.
    destruct (@non_variable_span_ends _ _ Hin') as [Hcut _].
    rewrite Hstart in Hcut. unfold word_after in Hcut.
    cbn [word_before] in Hcut. rewrite Ec, Hbo in Hcut.
    cbn [is_word_opt] in Hcut. rewrite Hc, Hc' in Hcut. discriminate Hcut.
Qed.

Lemma candidates_are_whole_words_witness :
  In (7, 8) (finditer re_words
               (remove_non_variables (txt " value Y + 12 }")) no_flags) /\
  group (remove_non_variables (txt " value Y + 12 }")) (7, 8)
  = slice (7, 8) (txt " value Y + 12 }") /\
  is_name (slice (7, 8) (txt " value Y + 12 }")) = true /\
  word_before (txt " value Y + 12 }") 7 = false /\
  word_after (txt " value Y + 12 }") 8 = false.
Proof.
  assert (H : In (7, 8) (finditer re_words
                 (remove_non_variables (txt " value Y + 12 }")) no_flags))
    by (vm_compute; left; reflexivity).
  split; [exact H|].
  exact (@candidates_are_whole_words _ _ H).
Defined.

(** ** Queries up to case *)

Section Extensionality.
Variable f : flags.
Variable A : Type.







End Extensionality.










(** ** The records of a result *)

Lemma for_each_In {T U} (body : T -> outcome (list U)) l :
  forall bs b,
    for_each body l = Ok bs -> In b bs ->
    exists a bs', In a l /\ body a = Ok bs' /\ In b bs'.
Proof.
  induction l as [|a l IH]; intros bs b H Hin; simpl in H.
  - inversion H; subst bs. destruct Hin.
  - destruct (body a) as [bs1|] eqn:E1; [|discriminate H]. cbn [bind] in H.
    destruct (for_each body l) as [bs2|] eqn:E2; [|discriminate H].
    cbn [bind] in H. inversion H; subst bs.
    apply in_app_or in Hin. destruct Hin as [Hin|Hin].
    + exists a, bs1. auto using in_eq.
    + destruct (IH _ _ eq_refl Hin) as (a' & bs' & Ha & Hb & Hin').
      exists a', bs'. auto using in_cons.
Qed.

Lemma statement_span code kw var m :
  In m (find_statement code kw var) -> fst m < snd m <= length code.
Proof.
  intros Hin. apply finditer_matched in Hin.
  pose proof (matched_bounds Hin) as Hb.
  pose proof (slice_length m code Hb) as Hl.
  apply matched_shape, shape_statement in Hin.
  destruct Hin as (k & ws & v & ws2 & tail & Hs & _ & _ & Hws & _).
  rewrite Hs in Hl. rewrite !length_app in Hl.
  destruct ws; [contradiction|]. simpl in Hl. lia.
Qed.

Lemma sanitized_code_length v :
  length (remove_cases (remove_comments v)) = length v.
Proof. rewrite remove_cases_length. apply remove_comments_length. Qed.

Lemma find_definitions_well_formed wresl_code s rec :
  In rec (find_definitions wresl_code s) ->
  well_formed_record wresl_code rec /\ record_var rec = s.
Proof.
  intros H. apply find_definitions_In in H.
  destruct H as (k & v & m & -> & Hkv & Hm). split; [|reflexivity].
  exists v. split; [exact Hkv|]. split; [reflexivity|].
  apply statement_span in Hm. rewrite sanitized_code_length in Hm. exact Hm.
Qed.

Lemma find_statement_inputs_names wresl_code defs candidates s :
  find_statement_inputs wresl_code defs = Ok candidates ->
  In s candidates -> is_name s = true.
Proof.
  intros H Hin. unfold find_statement_inputs in H.
  eapply for_each_In in H; [|exact Hin].
  destruct H as ([[[v file] lines] span] & bs & _ & Hb & Hs).
  destruct (getitem wresl_code file) as [t|]; [|discriminate Hb].
  cbn [bind] in Hb.
  destruct (item (split1 "{" (slice span t)) 1) as [body|];
    [|discriminate Hb].
  cbn [bind] in Hb. inversion Hb; subst bs.
  apply in_map_iff in Hs. destruct Hs as (m & <- & Hm).
  apply finditer_matched, words_match in Hm. apply Hm.
Qed.

Lemma find_dependents_well_formed wresl_code var deps rec :
  find_dependents wresl_code var = Ok deps -> In rec deps ->
  well_formed_record wresl_code rec.
Proof.
  intros H Hin. unfold find_dependents in H.
  eapply for_each_In in H; [|exact Hin].
  destruct H as ([k v] & bs & Hkv & Hb & Hrec).
  eapply for_each_In in Hb; [|exact Hrec].
  destruct Hb as (m & bs' & Hm & Hbody & Hrec').
  destruct (item (split1 "{" (slice m v)) 1) as [body|];
    [|discriminate Hbody].
  cbn [bind] in Hbody.
  destruct (finditer (re_var var) (remove_non_variables body) I).
  { inversion Hbody; subst bs'. destruct Hrec'. }
  destruct (declared_variable (split1 "{" (slice m v))) as [vr|];
    [|discriminate Hbody].
  cbn [bind] in Hbody. inversion Hbody; subst bs'.
  destruct Hrec' as [<-|[]].
  exists v. split; [exact Hkv|]. split; [reflexivity|].
  apply in_app_or in Hm.
  destruct Hm as [Hm|Hm]; apply statement_span in Hm;
    rewrite sanitized_code_length in Hm; exact Hm.
Qed.

(** X9. Every record of a result is well formed: it names a file of the
    study and a span of that file's text that is not empty, and its line
    numbers are those of that span in that file.  The records of
    [defined] carry the queried name, and the records of [inputs] carry
    names that are words. *)
Theorem records_are_well_formed {O : SetOrder} (fs : study_dir)
        (study var output_file : str) (verbose : bool) (r : run)
        (d : results_dict) :
  main fs study var output_file verbose = Ok r ->
  returned r = Some d ->
  Forall (well_formed_record (wresl_files fs))
         (defined d ++ inputs d ++ dependencies d) /\
  Forall (fun rec => record_var rec = var) (defined d) /\
  Forall (fun rec => is_name (record_var rec) = true) (inputs d).
Proof.
  unfold main. intros Hr Hd.
  destruct (negb (path_exists fs)); [discriminate Hr|].
  destruct (find_definitions (wresl_files fs) var) as [|x l] eqn:Hdef.
  { inversion Hr; subst r. discriminate Hd. }
  destruct (find_statement_inputs (wresl_files fs) (x :: l))
    as [candidates|] eqn:Hc; [|discriminate Hr].
  cbn [bind] in Hr.
  destruct (find_dependents (wresl_files fs) var) as [deps|] eqn:Hp;
    [|discriminate Hr].
  cbn [bind] in Hr. inversion Hr; subst r. cbn [returned] in Hd.
  inversion Hd; subst d. cbn [defined inputs dependencies].
  rewrite <- Hdef.
  assert (Hin : forall rec,
             In rec (find_inputs (wresl_files fs) candidates) ->
             well_formed_record (wresl_files fs) rec /\
             is_name (record_var rec) = true).
  { intros rec H. unfold find_inputs in H. apply in_flat_map in H.
    destruct H as (s & Hs & Hrec).
    apply find_definitions_well_formed in Hrec. destruct Hrec as [Hw ->].
    split; [exact Hw|].
    eapply find_statement_inputs_names; [exact Hc|].
    apply (proj1 (list_set_In candidates s)). exact Hs. }
  repeat split.
  - rewrite !Forall_app. repeat split; apply Forall_forall; intros rec H.
    + eapply find_definitions_well_formed, H.
    + apply (Hin _ H).
    + eapply find_dependents_well_formed; [exact Hp | exact H].
  - apply Forall_forall. intros rec H.
    eapply find_definitions_well_formed, H.
  - apply Forall_forall. intros rec H. apply (Hin _ H).
Qed.

Lemma records_are_well_formed_witness :
  exists r d,
    main (Sample.study Sample.comment_in_body) (txt "CalSim3") (txt "X")
         [] false = Ok r /\
    returned r = Some d /\
    Forall (well_formed_record Sample.comment_in_body)
           (defined d ++ inputs d ++ dependencies d) /\
    Forall (fun rec => record_var rec = txt "X") (defined d) /\
    Forall (fun rec => is_name (record_var rec) = true) (inputs d).
Proof.
  assert (H : exists r d,
             main (Sample.study Sample.comment_in_body) (txt "CalSim3")
                  (txt "X") [] false = Ok r /\ returned r = Some d).
  { eexists. eexists. split; [vm_compute; reflexivity | reflexivity]. }
  destruct H as (r & d & Hr & Hd). exists r, d.
  split; [exact Hr|]. split; [exact Hd|].
  exact (@records_are_well_formed last_occurrence_order
           (Sample.study Sample.comment_in_body) (txt "CalSim3") (txt "X")
           [] false r d Hr Hd).
Defined.

(** ** The order of the set *)




(** ** The line of an offset *)

Lemma In_newline_existsb s :
  existsb (Ascii.eqb newline) s = true <-> In newline s.
Proof.
  rewrite existsb_exists. split.
  - intros (c & Hin & E). apply Ascii.eqb_eq in E. subst c. exact Hin.
  - intros H. exists newline. split; [exact H | apply Ascii.eqb_refl].
Qed.

Lemma locate_past o s :
  forall start n i acc,
    start <= n -> ~ In newline (skipn (o - n) s) ->
    locate o start n i s acc =
    match o - n with
    | 0 => acc
    | S j =>
        match nth_error s j with
        | Some c =>
            if Ascii.eqb c newline
            then Some (i + count_occ ascii_dec (firstn j s) newline)
            else acc
        | None => acc
        end
    end.
Proof.
  induction s as [|x s IH]; intros start n i acc Hn Hno.
  - cbn [locate]. destruct (o - n) as [|j]; [reflexivity|].
    destruct j; reflexivity.
  - cbn [locate]. destruct (Ascii.eqb_spec x newline) as [->|Hx].
    + destruct (o - n) as [|k] eqn:Ek.
      { exfalso. apply Hno. left. reflexivity. }
      cbn [skipn] in Hno.
      assert (Ek' : o - S n = k) by lia.
      rewrite IH by (rewrite ?Ek'; auto). rewrite Ek'.
      destruct k as [|j].
      * cbn [nth_error firstn count_occ]. rewrite Ascii.eqb_refl.
        unfold pick. cbn [fst snd].
        destruct (Nat.leb_spec start o); [|lia].
        destruct (Nat.leb_spec o (S n)); [|lia].
        cbn [andb]. f_equal. lia.
      * cbn [nth_error firstn].
        rewrite count_occ_cons_eq by reflexivity.
        assert (Hp : pick o acc (i, (start, S n)) = acc).
        { unfold pick. cbn [fst snd].
          destruct (Nat.leb_spec o (S n)); [lia|].
          rewrite andb_false_r. reflexivity. }
        rewrite Hp.
        destruct (nth_error s j) as [c|]; [|reflexivity].
        destruct (Ascii.eqb c newline); [f_equal; lia | reflexivity].
    + destruct (o - n) as [|k] eqn:Ek.
      * assert (Ek' : o - S n = 0) by lia.
        rewrite IH; rewrite ?Ek'; [reflexivity | lia |].
        cbn [skipn] in *. intros H. apply Hno. right. exact H.
      * cbn [skipn] in Hno.
        assert (Ek' : o - S n = k) by lia.
        rewrite IH by (rewrite ?Ek'; auto). rewrite Ek'.
        destruct k as [|j].
        -- cbn [nth_error]. destruct (Ascii.eqb_spec x newline);
             [contradiction | reflexivity].
        -- cbn [nth_error firstn].
           rewrite count_occ_cons_neq by exact Hx. reflexivity.
Qed.

Lemma fold_pick_line_at o code :
  fold_left (pick o) (enumerate1 (finditer re_lines code I)) None
  = line_at code o.
Proof.
  unfold enumerate1, line_at. rewrite finditer_lines, fold_line_spans.
  destruct (existsb (Ascii.eqb newline) (skipn o code)) eqn:E.
  - apply In_newline_existsb in E.
    rewrite locate_found by (rewrite ?Nat.sub_0_r; auto; lia).
    rewrite Nat.sub_0_r. reflexivity.
  - assert (Hno : ~ In newline (skipn (o - 0) code)).
    { rewrite Nat.sub_0_r. intros H. apply In_newline_existsb in H.
      congruence. }
    rewrite locate_past by (auto; lia). rewrite Nat.sub_0_r.
    destruct o as [|j]; [reflexivity|].
    destruct (nth_error code j) as [c|]; [|reflexivity].
    destruct (Ascii.eqb c newline); reflexivity.
Qed.

(** X11. The line numbers that [line_numbers] returns, read off the
    text: each end of the span is attributed to the line on which it
    lies if a line break stands at or after it, to the line of the final
    line break if it stands right after that break, and to no line
    ([None]) if it lies further on or the text has no line break. *)
Theorem line_numbers_characterised (m : span) (code : str) :
  line_numbers m code = (line_at code (fst m), line_at code (snd m)).
Proof.
  rewrite line_numbers_fold, !fold_pick_line_at. reflexivity.
Qed.

(** ** Line numbers of the findings *)

Lemma statement_last_char code kw var m :
  In m (find_statement code kw var) ->
  0 < snd m /\ nth_error code (snd m - 1) = Some "}"%char.
Proof.
  intros Hin. unfold find_statement in Hin. apply finditer_match in Hin.
  destruct Hin as (b & w1 & rest & Hcode & Hf & Hm).
  apply statement_match in Hm.
  destruct Hm as (k & ws & v & ws2 & body & tail & Hrest & He & _).
  set (w := k ++ ws ++ v ++ ws2 ++ "{"%char :: body) in *.
  assert (E : k ++ ws ++ v ++ ws2 ++ "{"%char :: body ++ ["}"%char]
              = w ++ ["}"%char]).
  { unfold w. rewrite <- !app_assoc. reflexivity. }
  rewrite E in Hrest, He. rewrite length_app in He. cbn [length] in He.
  split; [lia|].
  replace (snd m - 1) with (length (w1 ++ w)) by (rewrite length_app; lia).
  rewrite Hcode, Hrest, <- !app_assoc, app_assoc.
  rewrite nth_error_app2 by lia. rewrite Nat.sub_diag. reflexivity.
Qed.

Lemma statement_before_final_line_break v' kw var m :
  In m (find_statement
          (remove_cases (remove_comments (v' ++ [newline]))) kw var) ->
  snd m <= length v'.
Proof.
  intros Hin. pose proof (statement_span _ _ _ _ Hin) as Hs.
  rewrite sanitized_code_length, length_app in Hs. cbn [length] in Hs.
  destruct (statement_last_char _ _ _ _ Hin) as [Hpos Hc].
  destruct (Nat.eq_dec (snd m) (S (length v'))) as [E|]; [|lia].
  exfalso. rewrite E in Hc. cbn [Nat.sub] in Hc. rewrite Nat.sub_0_r in Hc.
  destruct (sanitized_code (v' ++ [newline])) as [_ Hsan].
  destruct (Hsan _ _ Hc) as [H|H]; [discriminate H|].
  rewrite nth_error_app2, Nat.sub_diag in H by lia. discriminate H.
Qed.

Lemma line_break_follows v' o :
  o <= length v' -> In newline (skipn o (v' ++ [newline])).
Proof.
  intros H. rewrite skipn_app. apply in_or_app. right.
  replace (o - length v') with 0 by lia. left. reflexivity.
Qed.

Lemma count_occ_firstn_skipn (s : str) o c :
  count_occ ascii_dec (firstn o s) c + count_occ ascii_dec (skipn o s) c
  = count_occ ascii_dec s c.
Proof. rewrite <- count_occ_app, firstn_skipn. reflexivity. Qed.

Lemma line_of_mono s a b : a <= b -> line_of s a <= line_of s b.
Proof.
  intros H. unfold line_of. apply le_n_S.
  replace (firstn a s) with (firstn a (firstn b s))
    by (rewrite firstn_firstn; f_equal; lia).
  pose proof (count_occ_firstn_skipn (firstn b s) a newline). lia.
Qed.

Lemma line_of_bound s o :
  In newline (skipn o s) ->
  1 <= line_of s o <= count_occ ascii_dec s newline.
Proof.
  intros H. unfold line_of.
  pose proof (count_occ_firstn_skipn s o newline).
  apply (count_occ_In ascii_dec) in H. lia.
Qed.

Lemma line_numbers_located m code :
  In newline (skipn (fst m) code) -> In newline (skipn (snd m) code) ->
  line_numbers m code
  = (Some (line_of code (fst m)), Some (line_of code (snd m))).
Proof.
  intros H1 H2. rewrite line_numbers_fold, !fold_pick_line_at.
  unfold line_at. apply In_newline_existsb in H1, H2.
  rewrite H1, H2. reflexivity.
Qed.

Lemma find_definitions_statement wresl_code s rec :
  In rec (find_definitions wresl_code s) ->
  statement_record wresl_code rec.
Proof.
  intros H. apply find_definitions_In in H.
  destruct H as (k & v & m & -> & Hkv & Hm).
  exists v, re_define, (lit s). auto.
Qed.

Lemma find_dependents_statement wresl_code var deps rec :
  find_dependents wresl_code var = Ok deps -> In rec deps ->
  statement_record wresl_code rec.
Proof.
  intros H Hin. unfold find_dependents in H.
  eapply for_each_In in H; [|exact Hin].
  destruct H as ([k v] & bs & Hkv & Hb & Hrec).
  eapply for_each_In in Hb; [|exact Hrec].
  destruct Hb as (m & bs' & Hm & Hbody & Hrec').
  destruct (item (split1 "{" (slice m v)) 1) as [body|];
    [|discriminate Hbody].
  cbn [bind] in Hbody.
  destruct (finditer (re_var var) (remove_non_variables body) I).
  { inversion Hbody; subst bs'. destruct Hrec'. }
  destruct (declared_variable (split1 "{" (slice m v))) as [vr|];
    [|discriminate Hbody].
  cbn [bind] in Hbody. inversion Hbody; subst bs'.
  destruct Hrec' as [<-|[]].
  apply in_app_or in Hm. destruct Hm as [Hm|Hm].
  - exists v, re_define, re_any. auto.
  - exists v, re_goal, re_any. auto.
Qed.

Lemma main_statement_records {O : SetOrder} (fs : study_dir)
      (study var output_file : str) (verbose : bool) (r : run)
      (d : results_dict) :
  main fs study var output_file verbose = Ok r ->
  returned r = Some d ->
  Forall (statement_record (wresl_files fs))
         (defined d ++ inputs d ++ dependencies d).
Proof.
  unfold main. intros Hr Hd.
  destruct (negb (path_exists fs)); [discriminate Hr|].
  destruct (find_definitions (wresl_files fs) var) as [|x l] eqn:Hdef.
  { inversion Hr; subst r. discriminate Hd. }
  destruct (find_statement_inputs (wresl_files fs) (x :: l))
    as [candidates|] eqn:Hc; [|discriminate Hr].
  cbn [bind] in Hr.
  destruct (find_dependents (wresl_files fs) var) as [deps|] eqn:Hp;
    [|discriminate Hr].
  cbn [bind] in Hr. inversion Hr; subst r. cbn [returned] in Hd.
  inversion Hd; subst d. cbn [defined inputs dependencies].
  rewrite <- Hdef. rewrite !Forall_app.
  repeat split; apply Forall_forall; intros rec H.
  - eapply find_definitions_statement, H.
  - unfold find_inputs in H. apply in_flat_map in H.
    destruct H as (s & _ & Hrec).
    eapply find_definitions_statement, Hrec.
  - eapply find_dependents_statement; [exact Hp | exact H].
Qed.

(** X12. In a study whose files all end with a line break, every record
    of a result carries two line numbers: the start line and the end
    line of the statement are lines of the file, counted from 1, and the
    start line is not after the end line. *)
Theorem findings_carry_line_numbers {O : SetOrder} (fs : study_dir)
        (study var output_file : str) (verbose : bool) (r : run)
        (d : results_dict) :
  Forall (fun kv : str * str => exists v', snd kv = v' ++ [newline])
         (wresl_files fs) ->
  main fs study var output_file verbose = Ok r ->
  returned r = Some d ->
  Forall (fun rec =>
            exists v a b,
              In (record_file rec, v) (wresl_files fs) /\
              record_lines rec = (Some a, Some b) /\
              1 <= a /\ a <= b /\ b <= count_occ ascii_dec v newline)
         (defined d ++ inputs d ++ dependencies d).
Proof.
  intros Hnl Hr Hd.
  pose proof (main_statement_records _ _ _ _ _ Hr Hd) as H.
  eapply Forall_impl; [|exact H].
  intros [[[name file] lines] m] (v & kw & vr & Hkv & Hl & Hm).
  rewrite Forall_forall in Hnl. destruct (Hnl _ Hkv) as (v' & Ev).
  cbn [snd] in Ev. subst v.
  pose proof (statement_before_final_line_break _ _ _ _ Hm) as He.
  pose proof (statement_span _ _ _ _ Hm) as Hs.
  assert (H1 : In newline (skipn (fst m) (v' ++ [newline])))
    by (apply line_break_follows; lia).
  assert (H2 : In newline (skipn (snd m) (v' ++ [newline])))
    by (apply line_break_follows; lia).
  exists (v' ++ [newline]), (line_of (v' ++ [newline]) (fst m)),
         (line_of (v' ++ [newline]) (snd m)).
  cbn [record_file record_lines]. split; [exact Hkv|].
  split; [rewrite Hl; apply line_numbers_located; assumption|].
  split; [apply line_of_bound; exact H1|].
  split; [apply line_of_mono; lia|].
  apply line_of_bound; exact H2.
Qed.

Lemma findings_carry_line_numbers_witness :
  exists r d,
    Forall (fun kv : str * str => exists v', snd kv = v' ++ [newline])
           (wresl_files (Sample.study Sample.comment_in_body)) /\
    main (Sample.study Sample.comment_in_body) (txt "CalSim3") (txt "X")
         [] false = Ok r /\
    returned r = Some d /\
    Forall (fun rec =>
              exists v a b,
                In (record_file rec, v)
                   (wresl_files (Sample.study Sample.comment_in_body)) /\
                record_lines rec = (Some a, Some b) /\
                1 <= a /\ a <= b /\ b <= count_occ ascii_dec v newline)
           (defined d ++ inputs d ++ dependencies d).
Proof.
  assert (Hnl : Forall
                  (fun kv : str * str => exists v', snd kv = v' ++ [newline])
                  (wresl_files (Sample.study Sample.comment_in_body))).
  { repeat constructor; eexists; reflexivity. }
  assert (H : exists r d,
             main (Sample.study Sample.comment_in_body) (txt "CalSim3")
                  (txt "X") [] false = Ok r /\ returned r = Some d).
  { eexists. eexists. split; [vm_compute; reflexivity | reflexivity]. }
  destruct H as (r & d & Hr & Hd). exists r, d.
  split; [exact Hnl|]. split; [exact Hr|]. split; [exact Hd|].
  exact (@findings_carry_line_numbers last_occurrence_order
           (Sample.study Sample.comment_in_body) (txt "CalSim3") (txt "X")
           [] false r d Hnl Hr Hd).
Defined.

(** ** Exceptions *)



Lemma reported_name_is_outside_removed_spans_witness :
  is_name (txt "X") = true /\
  In (0, 22)
     (find_statement
        (remove_cases (remove_comments (txt "define X { /* Y */ 1 }")))
        re_define (lit (txt "X"))) /\
  exists p,
    0 < p /\ p + 1 < 22 /\
    ci_str_eqb (txt "X") (slice (p, p + 1) (txt "define X { /* Y */ 1 }"))
    = true /\
    forall i, p <= i < p + 1 ->
              existsb (covers i)
                      (comment_spans (txt "define X { /* Y */ 1 }")) = false /\
              existsb (covers i)
                      (case_spans
                         (remove_comments (txt "define X { /* Y */ 1 }")))
              = false.
Proof.
  assert (H1 : is_name (txt "X") = true) by reflexivity.
  assert (H2 : In (0, 22)
                  (find_statement
                     (remove_cases
                        (remove_comments (txt "define X { /* Y */ 1 }")))
                     re_define (lit (txt "X")))).
  { vm_compute. left. reflexivity. }
  split; [exact H1|]. split; [exact H2|].
  exact (@reported_name_is_outside_removed_spans
           (txt "define X { /* Y */ 1 }") (txt "X") (0, 22) H1 H2).
Defined.

(** ** The report *)

Lemma count_str_of_uint u :
  count_occ ascii_dec
            (txt (DecimalString.NilEmpty.string_of_uint u)) newline = 0.
Proof.
  unfold txt.
  induction u;
    cbn [DecimalString.NilEmpty.string_of_uint list_ascii_of_string];
    [reflexivity | rewrite count_occ_cons_neq by discriminate; assumption ..].
Qed.

Lemma count_str_of_opt o :
  count_occ ascii_dec (str_of_opt o) newline = 0.
Proof.
  destruct o as [n|]; [apply count_str_of_uint | reflexivity].
Qed.

Ltac count_pieces :=
  repeat rewrite count_occ_app;
  repeat rewrite count_str_of_opt;
  repeat rewrite count_str_of_uint;
  repeat match goal with
    | |- context [count_occ ascii_dec (txt ?s) newline] =>
        let E := fresh "E" in
        assert (E : count_occ ascii_dec (txt s) newline = 0)
          by (vm_compute; reflexivity);
        rewrite E; clear E
    | |- context [count_occ ascii_dec [newline] newline] =>
        let E := fresh "E" in
        assert (E : count_occ ascii_dec [newline] newline = 1)
          by reflexivity;
        rewrite E; clear E
    end.

Lemma count_found_in lines file :
  ~ In newline file ->
  count_occ ascii_dec (found_in lines file) newline = 0.
Proof.
  intros H. apply (count_occ_not_In ascii_dec) in H.
  unfold found_in. destruct lines as [a b].
  destruct (opt_eqb a b); count_pieces; rewrite H; reflexivity.
Qed.

Lemma count_fold_lines (f : str -> nat * record -> str)
      (P : record -> Prop) :
  (forall acc i rec,
      P rec ->
      count_occ ascii_dec (f acc (i, rec)) newline
      = S (count_occ ascii_dec acc newline)) ->
  forall l i acc,
    Forall P l ->
    count_occ ascii_dec
              (fold_left f (combine (seq i (length l)) l) acc) newline
    = count_occ ascii_dec acc newline + length l.
Proof.
  intros Hf. induction l as [|rec l IH]; intros i acc Hl.
  - cbn. lia.
  - inversion Hl; subst. cbn [length seq combine fold_left].
    rewrite IH by assumption. rewrite Hf by assumption. lia.
Qed.

(** X15. The report gives every finding one line: when no name and no
    path holds a line break, the report has seven lines of headings and
    separations, and one line more for each record of the three
    collections. *)
Theorem report_has_one_line_per_finding
        (var study : str) (var_defines var_inputs var_depends : list record) :
  ~ In newline var -> ~ In newline study ->
  Forall (fun rec => ~ In newline (record_var rec) /\
                     ~ In newline (record_file rec))
         (var_defines ++ var_inputs ++ var_depends) ->
  count_occ ascii_dec
            (generate_report var study var_defines var_inputs var_depends)
            newline
  = 7 + length var_defines + length var_inputs + length var_depends.
Proof.
  intros Hv Hs Hall.
  apply Forall_app in Hall. destruct Hall as [Hd Hall].
  apply Forall_app in Hall. destruct Hall as [Hi Hp].
  apply (count_occ_not_In ascii_dec) in Hv, Hs.
  set (P := fun rec : record =>
              ~ In newline (record_var rec) /\
              ~ In newline (record_file rec)) in *.
  assert (Hline : forall acc i rec,
             P rec ->
             count_occ ascii_dec
               ((fun results (iv : nat * record) =>
                   let '(i, (v, file, lines, _)) := iv in
                   results ++ str_of_nat i ++ txt ". " ++ v ++ txt ": "
                   ++ found_in lines file ++ [newline]) acc (i, rec))
               newline
             = S (count_occ ascii_dec acc newline)).
  { intros acc i [[[v file] lines] m] [H1 H2].
    cbn [record_var record_file] in H1, H2.
    apply (count_occ_not_In ascii_dec) in H1. unfold str_of_nat.
    count_pieces. rewrite H1, count_found_in by exact H2. lia. }
  assert (Hdef : forall acc i rec,
             P rec ->
             count_occ ascii_dec
               ((fun results (iv : nat * record) =>
                   let '(i, (_, file, lines, _)) := iv in
                   results ++ str_of_nat i ++ txt ". "
                   ++ found_in lines file ++ [newline]) acc (i, rec))
               newline
             = S (count_occ ascii_dec acc newline)).
  { intros acc i [[[v file] lines] m] [H1 H2].
    cbn [record_var record_file] in H1, H2. unfold str_of_nat.
    count_pieces. rewrite count_found_in by exact H2. lia. }
  unfold generate_report, enumerate1. cbv zeta.
  destruct var_inputs as [|i0 ins]; destruct var_depends as [|d0 deps];
    repeat first [ rewrite (@count_fold_lines _ _ Hline) by assumption
                 | rewrite (@count_fold_lines _ _ Hdef) by assumption
                 | rewrite count_occ_app ];
    count_pieces; rewrite ?Hv, ?Hs; cbn [length]; lia.
Qed.

Ltac no_line_break :=
  vm_compute; intros H;
  repeat (destruct H as [H|H]; [discriminate H|]); exact H.

Lemma report_has_one_line_per_finding_witness :
  count_occ ascii_dec
            (generate_report
               (txt "X") (txt "/studies/CalSim3")
               [(txt "X", Sample.a_wresl, (Some 1, Some 1), (0, 22))]
               [(txt "Y", Sample.b_wresl, (Some 1, Some 2), (0, 14))] [])
            newline
  = 7 + 1 + 1 + 0.
Proof.
  apply report_has_one_line_per_finding.
  - no_line_break.
  - no_line_break.
  - repeat constructor; no_line_break.
Defined.

(** ** The token strip leaves no token behind *)

Lemma ci_eqb_space x : ci_eqb x space = Ascii.eqb x space.
Proof. ascii_cases x; reflexivity. Qed.

Lemma ci_eqb_line_break x : ci_eqb x newline = Ascii.eqb x newline.
Proof. ascii_cases x; reflexivity. Qed.

Lemma atom_solid_ok f a x :
  atom_solid a = true -> atom_ok f a x = true -> x <> space.
Proof.
  intros Ha Hx ->. destruct a as [c| | | |]; try discriminate Ha.
  - cbn [atom_solid atom_ok] in *.
    destruct (IGNORECASE f); [rewrite ci_eqb_space in Hx|];
      rewrite Hx in Ha; discriminate Ha.
  - discriminate Hx.
  - discriminate Hx.
Qed.

Lemma atom_in_line_ok f a x :
  atom_in_line f a = true -> atom_ok f a x = true -> x <> newline.
Proof.
  intros Ha Hx ->. destruct a as [c| | | |]; try discriminate Ha.
  - cbn [atom_in_line atom_ok] in *.
    destruct (IGNORECASE f); [rewrite ci_eqb_line_break in Hx|];
      rewrite Hx in Ha; discriminate Ha.
  - cbn [atom_in_line atom_ok] in *. rewrite Ascii.eqb_refl in Hx.
    destruct (DOTALL f); discriminate.
  - discriminate Hx.
  - discriminate Hx.
Qed.

Lemma atom_transfer f a c o :
  kept_in_line c o -> atom_transfers a = true ->
  atom_ok f a o = true -> atom_ok f a c = true.
Proof.
  intros [->|[-> Hc]] Ha Ho; [exact Ho|].
  destruct a as [x| | | |]; try discriminate Ha.
  - exfalso. exact (atom_solid_ok f (Lit x) Ha Ho eq_refl).
  - cbn [atom_ok]. destruct (Ascii.eqb_spec c newline); [contradiction|].
    apply orb_true_r.
  - discriminate Ho.
  - discriminate Ho.
Qed.

Lemma shape_in_line f r : forall w,
  in_line f r = true -> shape f r w -> ~ In newline w.
Proof.
  assert (Hrun : forall a w,
             atom_in_line f a = true ->
             forallb (atom_ok f a) w = true -> ~ In newline w).
  { intros a w Ha Hw Hin. rewrite forallb_forall in Hw.
    exact (atom_in_line_ok f a Ha (Hw _ Hin) eq_refl). }
  induction r as [|a|r1 IH1 r2 IH2|a|a|a| |a]; intros w Hr Hs; simpl in *.
  - subst w. intros [].
  - destruct Hs as (x & -> & Hx). intros [->|[]].
    exact (atom_in_line_ok f a Hr Hx eq_refl).
  - apply andb_prop in Hr. destruct Hr as [H1 H2].
    destruct Hs as (w1 & w2 & -> & Hs1 & Hs2). intros Hin.
    apply in_app_or in Hin. destruct Hin as [Hin|Hin].
    + exact (IH1 _ H1 Hs1 Hin).
    + exact (IH2 _ H2 Hs2 Hin).
  - exact (Hrun a w Hr Hs).
  - exact (Hrun a w Hr Hs).
  - destruct Hs as [->|(x & -> & Hx)]; [intros []|]. intros [->|[]].
    exact (atom_in_line_ok f a Hr Hx eq_refl).
  - subst w. intros [].
  - subst w. intros [].
Qed.

Lemma skipn_cons_nth {T} (s : list T) i x t :
  skipn i s = x :: t -> nth_error s i = Some x.
Proof.
  intros H. rewrite <- (Nat.add_0_r i), <- nth_error_skipn, H. reflexivity.
Qed.

Lemma cursor_at_step s i x :
  nth_error s i = Some x ->
  cursor_at s i = Cur (last_char None (firstn i s)) i (x :: skipn (S i) s) /\
  cursor_at s (S i) = Cur (Some x) (S i) (skipn (S i) s).
Proof.
  intros H. apply nth_error_split in H. destruct H as (l1 & l2 & -> & <-).
  unfold cursor_at.
  assert (E1 : skipn (length l1) (l1 ++ x :: l2) = x :: l2).
  { rewrite skipn_app, skipn_all, Nat.sub_diag. reflexivity. }
  assert (E2 : skipn (S (length l1)) (l1 ++ x :: l2) = l2).
  { rewrite skipn_app, skipn_all2 by lia.
    replace (S (length l1) - length l1) with 1 by lia. reflexivity. }
  assert (E3 : firstn (S (length l1)) (l1 ++ x :: l2) = l1 ++ [x]).
  { rewrite firstn_app, firstn_all2 by lia.
    replace (S (length l1) - length l1) with 1 by lia. reflexivity. }
  rewrite E1, E2, E3, last_char_snoc. split; reflexivity.
Qed.

Lemma cursor_at_cons s i p n x t :
  Cur p n (x :: t) = cursor_at s i ->
  n = i /\ nth_error s i = Some x /\ i < length s /\
  Cur (Some x) (S n) t = cursor_at s (S i).
Proof.
  intros H. unfold cursor_at in H. inversion H as [[Hp Hn Hs]].
  symmetry in Hs. pose proof (skipn_cons_nth _ _ Hs) as Hx.
  destruct (cursor_at_step _ _ Hx) as [_ E]. rewrite E.
  rewrite Hs in H.
  assert (Ht : skipn (S i) s = t).
  { destruct (cursor_at_step _ _ Hx) as [E1 _]. unfold cursor_at in E1.
    rewrite Hs in E1. inversion E1. congruence. }
  rewrite Ht. repeat split; auto.
  apply nth_error_Some. congruence.
Qed.

Lemma at_boundary_cursor s i :
  i <= length s ->
  at_boundary (cursor_at s i) = xorb (word_before s i) (word_after s i).
Proof.
  intros Hi. unfold at_boundary, cursor_at. cbn [prev rest].
  pose proof (word_before_split (firstn i s) (skipn i s)) as B.
  pose proof (word_after_split (firstn i s) (skipn i s)) as A.
  rewrite firstn_skipn, length_firstn in B, A.
  replace (Nat.min i (length s)) with i in B, A by lia.
  rewrite B, A. reflexivity.
Qed.

Lemma Forall2_nth_r {T U} (R : T -> U -> Prop) a b i y :
  Forall2 R a b -> nth_error b i = Some y ->
  exists x, nth_error a i = Some x /\ R x y.
Proof.
  intros H. revert i. induction H as [|x0 y0 a b H0 _ IH]; intros i Hy.
  - destruct i; discriminate Hy.
  - destruct i as [|i].
    + inversion Hy; subst. exists x0. auto.
    + apply (IH i Hy).
Qed.

Section Transfer.

Variables code out : str.
Variable f : flags.
Hypothesis Hk : Forall2 kept_in_line code out.
Hypothesis Hb :
  forall i, i <= length out ->
            xorb (word_before out i) (word_after out i) = true ->
            xorb (word_before code i) (word_after code i) = true.

Lemma transfer_length : length code = length out.
Proof. exact (Forall2_length Hk). Qed.

Lemma atom_step_transfer a p n x t i :
  atom_transfers a = true -> atom_ok f a x = true ->
  Cur p n (x :: t) = cursor_at out i ->
  exists c,
    S i <= length out /\
    Cur (Some x) (S n) t = cursor_at out (S i) /\
    atom_ok f a c = true /\
    cursor_at code i
    = Cur (last_char None (firstn i code)) i (c :: skipn (S i) code) /\
    cursor_at code (S i) = Cur (Some c) (S i) (skipn (S i) code).
Proof.
  intros Ha Hx Hc. apply cursor_at_cons in Hc.
  destruct Hc as (-> & Ho & Hlt & Hnext).
  destruct (Forall2_nth_r _ Hk Ho) as (c & Hcc & Hkept).
  destruct (cursor_at_step _ _ Hcc) as [E1 E2].
  exists c. repeat split; auto.
  exact (atom_transfer f a Hkept Ha Hx).
Qed.

Lemma repeats_transfer a :
  atom_transfers a = true ->
  forall c c', repeats f a c c' ->
  forall i, c = cursor_at out i -> i <= length out ->
  exists j, i <= j <= length out /\ c' = cursor_at out j /\
            repeats f a (cursor_at code i) (cursor_at code j).
Proof.
  intros Ha c c' H.
  induction H as [c|p n x s c' Hx _ IH]; intros i Hc Hi.
  - exists i. repeat split; auto. constructor.
  - destruct (atom_step_transfer _ Ha Hx Hc)
      as (y & Hlt & Hnext & Hy & E1 & E2).
    destruct (IH (S i) Hnext Hlt) as (j & Hj & Hc' & Hrep).
    exists j. split; [lia|]. split; [exact Hc'|].
    rewrite E1. apply rep_step; [exact Hy|]. rewrite <- E2. exact Hrep.
Qed.

Lemma matches_transfer r :
  forall c c', matches f r c c' ->
  transfers r = true ->
  forall i, c = cursor_at out i -> i <= length out ->
  exists j, i <= j <= length out /\ c' = cursor_at out j /\
            matches f r (cursor_at code i) (cursor_at code j).
Proof.
  intros c c' H.
  induction H as [c|a p n x s Hx|r1 r2 c1 c2 c3 _ IH1 _ IH2|a c c' Hr
                 |a c c' Hr|a p n x s Hx|a c|c Hbd|a p n x s Hx];
    intros Ht i Hc Hi; cbn [transfers] in Ht.
  - exists i. repeat split; auto. constructor.
  - destruct (atom_step_transfer _ Ht Hx Hc)
      as (y & Hlt & Hnext & Hy & E1 & E2).
    exists (S i). split; [lia|]. split; [exact Hnext|].
    rewrite E1, E2. apply m_atom. exact Hy.
  - apply andb_prop in Ht. destruct Ht as [Ht1 Ht2].
    destruct (IH1 Ht1 i Hc Hi) as (j & Hj & Hc2 & H1).
    destruct (IH2 Ht2 j Hc2 (proj2 Hj)) as (k & Hk' & Hc3 & H2).
    exists k. split; [lia|]. split; [exact Hc3|].
    eapply m_cat; eassumption.
  - destruct (repeats_transfer Ht Hr Hc Hi) as (j & Hj & Hc' & Hrep).
    exists j. repeat split; auto; try lia. apply m_star. exact Hrep.
  - destruct (repeats_transfer Ht Hr Hc Hi) as (j & Hj & Hc' & Hrep).
    exists j. repeat split; auto; try lia. apply m_star_lazy. exact Hrep.
  - destruct (atom_step_transfer _ Ht Hx Hc)
      as (y & Hlt & Hnext & Hy & E1 & E2).
    exists (S i). split; [lia|]. split; [exact Hnext|].
    rewrite E1, E2. apply m_opt_some. exact Hy.
  - exists i. repeat split; auto. apply m_opt_none.
  - exists i. repeat split; auto. apply m_bound.
    rewrite at_boundary_cursor by (rewrite transfer_length; exact Hi).
    apply Hb; [exact Hi|].
    rewrite <- at_boundary_cursor by exact Hi. rewrite <- Hc. exact Hbd.
  - discriminate Ht.
Qed.

End Transfer.

Lemma matched_cursor f r s m :
  matched f r s m ->
  fst m <= snd m <= length s /\
  matches f r (cursor_at s (fst m)) (cursor_at s (snd m)).
Proof.
  intros H. pose proof (matched_bounds H) as Hbd. split; [exact Hbd|].
  destruct H as (w1 & w & w2 & -> & -> & -> & Hm). unfold cursor_at.
  assert (E1 : firstn (length w1) (w1 ++ w ++ w2) = w1).
  { rewrite firstn_app, firstn_all, Nat.sub_diag. apply app_nil_r. }
  assert (E2 : skipn (length w1) (w1 ++ w ++ w2) = w ++ w2).
  { rewrite skipn_app, skipn_all, Nat.sub_diag. reflexivity. }
  assert (E3 : firstn (length w1 + length w) (w1 ++ w ++ w2) = w1 ++ w).
  { rewrite app_assoc, <- length_app, firstn_app, firstn_all, Nat.sub_diag.
    apply app_nil_r. }
  assert (E4 : skipn (length w1 + length w) (w1 ++ w ++ w2) = w2).
  { rewrite app_assoc, <- length_app, skipn_app, skipn_all, Nat.sub_diag.
    reflexivity. }
  rewrite E1, E2, E3, E4, last_char_app. exact Hm.
Qed.

Lemma cursor_matched f r s i j :
  i <= length s ->
  matches f r (cursor_at s i) (cursor_at s j) -> matched f r s (i, j).
Proof.
  intros Hi Hm. destruct (matches_after Hm) as (w & Hs & Hc).
  unfold cursor_at in Hs, Hc. cbn [rest] in Hs, Hc.
  unfold after in Hc. cbn [prev pos] in Hc. inversion Hc as [[Hp Hj]].
  exists (firstn i s), w, (skipn j s).
  assert (Hl : length (firstn i s) = i) by (rewrite length_firstn; lia).
  cbn [fst snd]. rewrite Hl, <- Hs, firstn_skipn.
  repeat split; auto.
  rewrite <- Hp, <- Hj. exact Hm.
Qed.

Lemma head_consumed f r c c' :
  matches f r c c' ->
  forall a, head_atom r = Some a ->
  exists x s, rest c = x :: s /\ atom_ok f a x = true /\ pos c < pos c'.
Proof.
  intros H.
  induction H as [c|a0 p n x s Hx|r1 r2 c1 c2 c3 H1 IH1 H2 IH2|a0 c c' Hr
                 |a0 c c' Hr|a0 p n x s Hx|a0 c|c Hbd|a0 p n x s Hx];
    intros a Ha; try discriminate Ha.
  - inversion Ha; subst a0. exists x, s. cbn [rest pos]. auto.
  - assert (Hle : pos c2 <= pos c3).
    { destruct (matches_after H2) as (w & _ & ->). unfold after. simpl. lia. }
    cbn [head_atom] in Ha.
    destruct r1; try discriminate Ha;
      try (destruct (IH1 _ Ha) as (x & s & Hs & Hx & Hlt);
           exists x, s; repeat split; auto; lia).
    inversion H1; subst. apply IH2. exact Ha.
Qed.

Lemma boundary_kept code ms out i :
  blanked code ms out ->
  (forall m, In m ms ->
             word_before code (fst m) && word_after code (fst m) = false /\
             word_before code (snd m) && word_after code (snd m) = false) ->
  xorb (word_before out i) (word_after out i) = true ->
  xorb (word_before code i) (word_after code i) = true.
Proof.
  intros Hbl Hends H.
  assert (W : forall j, is_word_opt (nth_error out j) = true ->
                        nth_error code j = nth_error out j /\
                        forall m, In m ms -> ~ (fst m <= j < snd m)).
  { intros j Hj. destruct (nth_error out j) as [c|] eqn:E; [|discriminate Hj].
    cbn [is_word_opt] in Hj. pose proof (is_word_not_space Hj) as Hsp.
    split.
    - pose proof (Hbl j) as Hbj. rewrite E in Hbj.
      destruct (existsb (covers j) ms); [|auto].
      inversion Hbj. contradiction.
    - intros m Hin. exact (@not_covered _ _ _ _ _ _ Hbl E Hsp Hin). }
  assert (C : forall j, is_word_opt (nth_error out j) = false ->
                        is_word_opt (nth_error code j) = true ->
                        exists m, In m ms /\ fst m <= j < snd m).
  { intros j Ho Hc. destruct (nth_error code j) as [c|] eqn:E;
      [|discriminate Hc].
    apply (@covered_by _ _ _ _ _ Hbl E). intros Hn. rewrite Hn in Ho.
    cbn [is_word_opt] in *. congruence. }
  unfold word_after in *. destruct i as [|j]; cbn [word_before] in *.
  - cbn [xorb] in *. destruct (W 0 H) as [-> _]. exact H.
  - destruct (is_word_opt (nth_error out j)) eqn:B;
      destruct (is_word_opt (nth_error out (S j))) eqn:A;
      try discriminate H.
    + destruct (W j B) as [Ej Hun]. rewrite Ej, B.
      destruct (is_word_opt (nth_error code (S j))) eqn:Ac; [|reflexivity].
      exfalso. destruct (C _ A Ac) as (m & Hin & Hcov).
      pose proof (Hun m Hin) as Hj.
      assert (Ef : fst m = S j) by lia.
      destruct (Hends m Hin) as [H0 _]. rewrite Ef in H0.
      cbn [word_before] in H0. unfold word_after in H0.
      rewrite Ej, B, Ac in H0. discriminate H0.
    + destruct (W (S j) A) as [Ej Hun]. rewrite Ej, A.
      destruct (is_word_opt (nth_error code j)) eqn:Bc; [|reflexivity].
      exfalso. destruct (C _ B Bc) as (m & Hin & Hcov).
      pose proof (Hun m Hin) as Hj.
      assert (Ef : snd m = S j) by lia.
      destruct (Hends m Hin) as [_ H1]. rewrite Ef in H1.
      cbn [word_before] in H1. unfold word_after in H1.
      rewrite Ej, A, Bc in H1. discriminate H1.
Qed.

Lemma key_patterns_solid :
  forallb (fun key => solid_pattern I (key_pattern key)) wresl_keys = true.
Proof. vm_compute. reflexivity. Qed.

Lemma non_variable_spans_keys code :
  non_variable_spans code
  = finditer re_num code no_flags
    ++ finditer re_cycle code no_flags
    ++ flat_map (fun key => finditer (key_pattern key) code I) wresl_keys.
Proof.
  assert (E : forall l,
             flat_map
               (fun wresl_key =>
                  if str_eqb wresl_key (txt "case")
                  then finditer re_case code I
                  else finditer (re_key wresl_key) code I) l
             = flat_map (fun key => finditer (key_pattern key) code I) l).
  { intros l. apply flat_map_ext. intros key. unfold key_pattern.
    destruct (str_eqb key (txt "case")); reflexivity. }
  unfold non_variable_spans. rewrite E. reflexivity.
Qed.

Lemma non_variable_span_pattern code m :
  In m (non_variable_spans code) ->
  exists f r, In m (finditer r code f) /\ solid_pattern f r = true.
Proof.
  rewrite non_variable_spans_keys, !in_app_iff, in_flat_map.
  intros [H|[H|(key & Hkey & H)]].
  - exists no_flags, re_num. split; [exact H | reflexivity].
  - exists no_flags, re_cycle. split; [exact H | reflexivity].
  - exists I, (key_pattern key). split; [exact H|].
    pose proof key_patterns_solid as Hs. rewrite forallb_forall in Hs.
    exact (Hs _ Hkey).
Qed.

Lemma non_variable_spans_in_line code m i :
  In m (non_variable_spans code) -> fst m <= i < snd m ->
  nth_error code i <> Some newline.
Proof.
  intros Hin Hi Hn.
  destruct (non_variable_span_pattern _ _ Hin) as (f & r & Hm & Hs).
  apply finditer_matched in Hm. unfold solid_pattern in Hs.
  apply andb_prop in Hs. destruct Hs as [Hs _].
  apply andb_prop in Hs. destruct Hs as [Hl _].
  apply (@shape_in_line f r _ Hl (matched_shape Hm)).
  apply nth_error_In with (n := i - fst m).
  rewrite nth_error_slice by lia.
  replace (fst m + (i - fst m)) with i by lia. exact Hn.
Qed.

Lemma remove_non_variables_kept code :
  Forall2 kept_in_line code (remove_non_variables code).
Proof.
  apply Forall2_of_nth; [symmetry; apply remove_non_variables_length|].
  intros i x y Hx Hy. rewrite (remove_non_variables_blanked code i) in Hy.
  destruct (existsb (covers i) (non_variable_spans code)) eqn:E.
  - inversion Hy; subst y. right. split; [reflexivity|]. intros ->.
    apply existsb_exists in E. destruct E as (m & Hin & Hc).
    unfold covers in Hc. apply andb_prop in Hc. destruct Hc as [H1 H2].
    apply Nat.leb_le in H1. apply Nat.ltb_lt in H2.
    apply (@non_variable_spans_in_line code m i Hin); [lia | exact Hx].
  - left. congruence.
Qed.

Lemma solid_pattern_nothing_left f r code :
  solid_pattern f r = true ->
  (forall m, In m (finditer r code f) -> In m (non_variable_spans code)) ->
  finditer r (remove_non_variables code) f = [].
Proof.
  intros Hs Hsub. unfold solid_pattern in Hs.
  apply andb_prop in Hs. destruct Hs as [Hs Hh].
  apply andb_prop in Hs. destruct Hs as [_ Ht].
  destruct (head_atom r) as [a|] eqn:Ha; [|discriminate Hh].
  apply (@nothing_left code (non_variable_spans code)
           (remove_non_variables code) f r
           (remove_non_variables_blanked code) Hsub).
  intros m Hm. set (out := remove_non_variables code) in *.
  assert (HB : forall i, i <= length out ->
                 xorb (word_before out i) (word_after out i) = true ->
                 xorb (word_before code i) (word_after code i) = true).
  { intros i _. apply (@boundary_kept code (non_variable_spans code) out i).
    - apply remove_non_variables_blanked.
    - apply non_variable_span_ends. }
  destruct (matched_cursor Hm) as [Hbd Hmc].
  destruct (head_consumed Hmc Ha) as (x & s & Hrest & Hx & Hlt).
  unfold cursor_at in Hrest, Hlt. cbn [rest pos] in Hrest, Hlt.
  split.
  - exists x. split; [exact (skipn_cons_nth _ _ Hrest)|].
    exact (@atom_solid_ok f a x Hh Hx).
  - destruct (@matches_transfer code out f (remove_non_variables_kept code)
                HB r _ _ Hmc Ht (fst m) eq_refl)
      as (j & Hj & Hc' & Hcode); [lia|].
    assert (Ej : j = snd m).
    { unfold cursor_at in Hc'. inversion Hc'. reflexivity. }
    subst j. exists (snd m). split; [exact Hlt|].
    apply cursor_matched; [|exact Hcode].
    pose proof (remove_non_variables_length code). fold out in H. lia.
Qed.

(** X16. [remove_non_variables] is idempotent: in its output none of its
    patterns (number, cycle reference, keyword, case head) matches any
    more, and applying it a second time changes nothing. *)
Theorem remove_non_variables_is_idempotent (code : str) :
  non_variable_spans (remove_non_variables code) = [] /\
  remove_non_variables (remove_non_variables code)
  = remove_non_variables code.
Proof.
  assert (H : non_variable_spans (remove_non_variables code) = []).
  { rewrite non_variable_spans_keys.
    rewrite (@solid_pattern_nothing_left no_flags re_num code eq_refl).
    - rewrite (@solid_pattern_nothing_left no_flags re_cycle code eq_refl).
      + cbn [app]. apply flat_map_nil. intros key Hkey.
        apply solid_pattern_nothing_left.
        * pose proof key_patterns_solid as Hs.
          rewrite forallb_forall in Hs. exact (Hs _ Hkey).
        * intros m Hm. rewrite non_variable_spans_keys, !in_app_iff.
          right. right. apply in_flat_map. exists key. auto.
      + intros m Hm. rewrite non_variable_spans_keys, !in_app_iff. auto.
    - intros m Hm. rewrite non_variable_spans_keys, !in_app_iff. auto. }
  split; [exact H|].
  unfold remove_non_variables at 1. rewrite H. reflexivity.
Qed.

(** ** Pass 1 misses no definition that the sanitizer leaves alone *)




